(** * Atelier Portfolio: the photo collection of [server/index.js]

    A shallow embedding of the metadata layer of the Express server: the
    JSON "database" ([readDB] / [writeDB]), the geometry classification done
    at registration, and the bodies of the admin routes that mutate the
    collection (register, update, delete, publish, reorder).

    Conventions of the embedding.
    - The collection is the JS array of photo objects, a [list Photo] in
      array order.  Every object of the array is a distinct object (the
      array comes out of [JSON.parse] or [push]), so the in-place mutation
      [p.field = v] of the object found by [db.find] is the functional
      update of the first matching element.
    - JS numbers that hold pixel sizes, positions and [order] values are
      integers, [Z] (every integer below 2^53 in size is a JS number).  The
      quotient [w / h] and the comparisons with 1.15 and 0.87 are those of
      IEEE 754 binary64, the JS number type: [spec_float] with precision 53
      and maximal exponent 1024.
    - A route either answers with an error status before anything is
      written, or passes the mutated array to [writeDB] and answers with a
      payload: this is the type [Outcome]. *)

From Stdlib Require Import ZArith List String Ascii Bool Lia.
From Stdlib Require Import Floats.SpecFloat.
From Stdlib Require Import Permutation Sorted RelationClasses.
Import ListNotations.

Local Open Scope string_scope.
Local Open Scope list_scope.
Local Open Scope Z_scope.

(** ** Data model *)

(** [orient]: one of the strings 'land', 'port', 'sq'. *)
Inductive Orient : Set := land | port | sq.

(** One element of the array kept in photos.json. *)
Record Photo : Set := mkPhoto {
  id : string;
  cloudinaryId : string;
  name : string;
  w : Z;
  h : Z;
  ratio : spec_float;
  orient : Orient;
  order : Z;
  published : bool;
  createdAt : string
}.

Definition set_name (v : string) (p : Photo) : Photo :=
  mkPhoto (id p) (cloudinaryId p) v (w p) (h p) (ratio p) (orient p)
          (order p) (published p) (createdAt p).

Definition set_order (v : Z) (p : Photo) : Photo :=
  mkPhoto (id p) (cloudinaryId p) (name p) (w p) (h p) (ratio p) (orient p)
          v (published p) (createdAt p).

Definition set_published (v : bool) (p : Photo) : Photo :=
  mkPhoto (id p) (cloudinaryId p) (name p) (w p) (h p) (ratio p) (orient p)
          (order p) v (createdAt p).

(** What a route does: [Done payload db'] is [await writeDB(db')] followed by
    [res.json(payload)]; [Fail status error] is
    [return res.status(status).json({ error })], with nothing written. *)
Inductive Outcome (A : Type) : Type :=
| Done (payload : A) (db' : list Photo)
| Fail (status : Z) (error : string).

Arguments Done {A} payload db'.
Arguments Fail {A} status error.

(** ** Geometry classification (register route, the [ratio] / [orient] lines) *)

(** Truthiness of a JS integer: every number but 0. *)
Definition truthy (n : Z) : bool := negb (n =? 0).

(** The JS number that holds the integer [n] (the nearest binary64 number,
    [n] itself when it is below 2^53 in size). *)
Definition js_of_Z (n : Z) : spec_float := binary_normalize 53 1024 n 0 false.

(** [x / y] on JS numbers. *)
Definition js_div (x y : spec_float) : spec_float := SFdiv 53 1024 x y.

(** [x < y] on JS numbers. *)
Definition js_lt (x y : spec_float) : bool := SFltb x y.

(** The literals [1.15] and [0.87]: the binary64 numbers nearest to 115/100
    and 87/100, 0x1.2666666666666p+0 and 0x1.bd70a3d70a3d7p-1. *)
Definition js_1_15 : spec_float := js_div (js_of_Z 115) (js_of_Z 100).
Definition js_0_87 : spec_float := js_div (js_of_Z 87) (js_of_Z 100).

(** [finalW && finalH ? finalW / finalH : 1] *)
Definition ratio_of (finalW finalH : Z) : spec_float :=
  if truthy finalW && truthy finalH
  then js_div (js_of_Z finalW) (js_of_Z finalH)
  else js_of_Z 1.

(** [ratio > 1.15 ? 'land' : ratio < 0.87 ? 'port' : 'sq'] *)
Definition orient_of (r : spec_float) : Orient :=
  if js_lt js_1_15 r then land
  else if js_lt r js_0_87 then port
  else sq.

(** The pair the register route derives from the final dimensions. *)
Definition classify (width height : Z) : spec_float * Orient :=
  let r := ratio_of width height in (r, orient_of r).

Arguments js_of_Z : simpl never.
Arguments js_div : simpl never.
Arguments js_lt : simpl never.

(** ** Array helpers used by the routes *)

(** The test [x => x.id === i] of [db.find]. *)
Definition has_id (i : string) (p : Photo) : bool := String.eqb (id p) i.

(** [const p = db.find(x => x.id === i); if (p) { p := f p }]: the first
    object whose id is [i] is mutated in place, the array is unchanged when
    there is none. *)
Fixpoint update_found (i : string) (f : Photo -> Photo) (db : list Photo)
  : list Photo :=
  match db with
  | [] => []
  | p :: rest =>
      if has_id i p then f p :: rest else p :: update_found i f rest
  end.

(** [ids.forEach((id, i) => { const p = db.find(x => x.id === id);
    if (p) { p := f i p } })], started at index [i]. *)
Fixpoint forEach_ids (f : nat -> Photo -> Photo) (ids : list string) (i : nat)
  (db : list Photo) : list Photo :=
  match ids with
  | [] => db
  | x :: rest => forEach_ids f rest (S i) (update_found x (f i) db)
  end.

(** [db.forEach((p, i) => { p := f i p })], started at index [i]. *)
Fixpoint forEach_idx (f : nat -> Photo -> Photo) (i : nat) (db : list Photo)
  : list Photo :=
  match db with
  | [] => []
  | p :: rest => f i p :: forEach_idx f (S i) rest
  end.

(** [db.forEach((p, i) => p.order = i)] *)
Definition renumber (db : list Photo) : list Photo :=
  forEach_idx (fun i p => set_order (Z.of_nat i) p) 0 db.

(** [db.sort((a, b) => a.order - b.order)].  [Array.prototype.sort] is a
    stable sort and the comparator is a total preorder on integer orders, so
    the sorted array is the one a stable insertion sort builds. *)
Fixpoint insert_by_order (p : Photo) (l : list Photo) : list Photo :=
  match l with
  | [] => [p]
  | q :: rest =>
      if order p <=? order q then p :: l else q :: insert_by_order p rest
  end.

Definition sort_by_order (db : list Photo) : list Photo :=
  fold_right insert_by_order [] db.

(** ** PUT /api/admin/photos/:id *)

(** [req.body]: a field is [None] when it is [undefined]. *)
Record PutBody : Set := mkPutBody {
  body_name : option string;
  body_order : option Z
}.

(** [if (req.body.name !== undefined) photo.name = req.body.name;
     if (req.body.order !== undefined) photo.order = req.body.order;] *)
Definition apply_patch (body : PutBody) (photo : Photo) : Photo :=
  let photo1 :=
    match body_name body with
    | Some v => set_name v photo
    | None => photo
    end in
  match body_order body with
  | Some v => set_order v photo1
  | None => photo1
  end.

Definition put_photo (i : string) (body : PutBody) (db : list Photo)
  : Outcome unit :=
  match find (has_id i) db with
  | None => Fail 404 "Photo introuvable"
  | Some _ => Done tt (update_found i (apply_patch body) db)
  end.

(** ** DELETE /api/admin/photos/:id *)

(** [destroy] is the outcome of [cloudinary.uploader.destroy]: [false] when
    the call throws.  The route wraps it in [try { } catch(e) {}]. *)
Definition delete_photo (destroy : string -> bool) (i : string)
  (db : list Photo) : Outcome unit :=
  match find (has_id i) db with
  | None => Fail 404 "Photo introuvable"
  | Some photo =>
      let _ := if destroy (cloudinaryId photo) then tt else tt in
      let db1 := filter (fun p => negb (has_id i p)) db in
      Done tt (renumber db1)
  end.

(** ** POST /api/admin/publish *)

Definition mark_published (i : nat) (p : Photo) : Photo :=
  set_order (Z.of_nat i) (set_published true p).

(** [ids] is [Some l] when [Array.isArray(req.body.ids)], [None] otherwise.
    The payload is the [published] count of the answer. *)
Definition publish (ids : option (list string)) (db : list Photo)
  : Outcome nat :=
  let db0 := map (set_published false) db in
  let db1 :=
    match ids with
    | Some l => forEach_ids mark_published l 0 db0
    | None => forEach_idx mark_published 0 db0
    end in
  Done (List.length (filter published db1)) db1.

(** ** POST /api/admin/reorder *)

Definition mark_order (i : nat) (p : Photo) : Photo :=
  set_order (Z.of_nat i) p.

Definition reorder (ids : option (list string)) (db : list Photo)
  : Outcome unit :=
  match ids with
  | None => Fail 400 "ids requis"
  | Some l => Done tt (sort_by_order (forEach_ids mark_order l 0 db))
  end.

(** ** DELETE /api/admin/photos *)

Definition clear_photos (db : list Photo) : Outcome unit := Done tt [].

(** ** POST /api/admin/photos/register *)

(** [req.body].  [reg_w] and [reg_h] hold the integer [parseInt] reads from
    the field, [None] when it reads none (the field is missing or does not
    start with digits, [parseInt] is [NaN]). *)
Record RegisterBody : Set := mkRegisterBody {
  reg_cloudinaryId : option string;
  reg_originalName : option string;
  reg_w : option Z;
  reg_h : option Z
}.

(** [parseInt(x) || 0] *)
Definition parseInt_or_0 (x : option Z) : Z :=
  match x with
  | Some n => n
  | None => 0
  end.

(** Truthiness of an optional string field: present and not empty. *)
Definition nonempty (s : option string) : option string :=
  match s with
  | Some EmptyString => None
  | Some v => Some v
  | None => None
  end.

Fixpoint has_slash (s : string) : bool :=
  match s with
  | EmptyString => false
  | String c rest => Ascii.eqb c "/" || has_slash rest
  end.

(** [s.split('/').pop()]: what follows the last '/' of [s]. *)
Fixpoint split_pop (s : string) : string :=
  match s with
  | EmptyString => EmptyString
  | String c rest =>
      if has_slash s then split_pop rest else s
  end.

Section Register.

(** Node's [path.basename(p, ext)] and [path.extname(p)]. *)
Variable path_basename : string -> string -> string.
Variable path_extname : string -> string.

(** [lookup] is [cloudinary.api.resource]: [None] when the call throws,
    otherwise [(info.width || 0, info.height || 0)].
    [uuid] is [crypto.randomUUID()], [now] is [new Date().toISOString()]. *)
Definition final_dims (lookup : string -> option (Z * Z))
  (cid : string) (body : RegisterBody) : Z * Z :=
  let finalW := parseInt_or_0 (reg_w body) in
  let finalH := parseInt_or_0 (reg_h body) in
  if negb (truthy finalW) || negb (truthy finalH) then
    match lookup cid with
    | Some info => info
    | None => (finalW, finalH)
    end
  else (finalW, finalH).

Definition default_name (cid : string) (body : RegisterBody) : string :=
  match nonempty (reg_originalName body) with
  | Some originalName =>
      path_basename originalName (path_extname originalName)
  | None => split_pop cid
  end.

Definition register (uuid now : string) (lookup : string -> option (Z * Z))
  (body : RegisterBody) (db : list Photo) : Outcome Photo :=
  match nonempty (reg_cloudinaryId body) with
  | None => Fail 400 "cloudinaryId manquant"
  | Some cid =>
      let '(finalW, finalH) := final_dims lookup cid body in
      let r := ratio_of finalW finalH in
      let photo :=
        mkPhoto uuid cid (default_name cid body) finalW finalH
                r (orient_of r) (Z.of_nat (List.length db)) false now in
      Done photo (db ++ [photo])
  end.

End Register.

(** ** The JSON database: [readDB] and [writeDB] *)

Section Persistence.

(** The contents of a file or of a raw Cloudinary object. *)
Variable bytes : Type.

(** [JSON.stringify(data, null, 2)] on an array of photos. *)
Variable JSON_stringify : list Photo -> bytes.

(** [JSON.parse] (and [r.json()]): [None] when it throws. *)
Variable JSON_parse : bytes -> option (list Photo).

(** The two copies: [DB_FILE] on the local disk ([None]: the file does not
    exist) and the raw object [DB_CLD_ID] at Cloudinary ([None]: there is
    no such object, the fetch answers with [r.ok] false). *)
Record Store : Type := mkStore {
  local_file : option bytes;
  cloud_raw : option bytes
}.

(** What the outside world does during one [readDB]: whether [fetch]
    resolves (rather than throwing), and whether [fs.writeFileSync] of the
    local copy succeeds. *)
Record ReadIO : Set := mkReadIO {
  fetch_up : bool;
  cache_write : bool
}.

(** What the outside world does during one [writeDB]: whether the write of
    [DB_FILE] succeeds, whether the write of the temporary file succeeds,
    and whether the upload succeeds. *)
Record WriteIO : Set := mkWriteIO {
  file_write : bool;
  tmp_write : bool;
  upload : bool
}.

(** First [try] block of [readDB]. *)
Definition read_local (st : Store) : option (list Photo) :=
  match local_file st with
  | Some s => JSON_parse s
  | None => None
  end.

(** Second [try] block of [readDB], up to [const data = await r.json()]. *)
Definition fetch_cloud (io : ReadIO) (st : Store) : option (list Photo) :=
  if fetch_up io then
    match cloud_raw st with
    | Some b => JSON_parse b
    | None => None
    end
  else None.

Definition readDB (io : ReadIO) (st : Store) : list Photo * Store :=
  match read_local st with
  | Some data => (data, st)
  | None =>
      match fetch_cloud io st with
      | Some data =>
          let st' :=
            if cache_write io
            then mkStore (Some (JSON_stringify data)) (cloud_raw st)
            else st in
          (data, st')
      | None => ([], st)
      end
  end.

Definition writeDB (io : WriteIO) (data : list Photo) (st : Store) : Store :=
  let json := JSON_stringify data in
  let st1 :=
    if file_write io then mkStore (Some json) (cloud_raw st) else st in
  if tmp_write io && upload io
  then mkStore (local_file st1) (Some json)
  else st1.

(** A mutating route that reads the database first, as the update, delete
    and publish routes do:
    [const db = await readDB(); ...; await writeDB(db)]. *)
Definition serve {A : Type} (route : list Photo -> Outcome A)
  (rio : ReadIO) (wio : WriteIO) (st : Store) : Outcome A * Store :=
  let '(db, st1) := readDB rio st in
  match route db with
  | Done payload db' => (Done payload db', writeDB wio db' st1)
  | Fail status error => (Fail status error, st1)
  end.

(** The reorder route answers 400 before it reads the database:
    [if (!Array.isArray(ids)) return res.status(400)...; const db = await
    readDB(); ...]. *)
Definition serve_reorder (ids : option (list string))
  (rio : ReadIO) (wio : WriteIO) (st : Store) : Outcome unit * Store :=
  match ids with
  | None => (Fail 400 "ids requis", st)
  | Some l => serve (reorder (Some l)) rio wio st
  end.

(** So does the register route when the blob reference is missing; the
    dimension lookup also comes before [readDB] and touches neither copy. *)
Definition serve_register (path_basename : string -> string -> string)
  (path_extname : string -> string) (uuid now : string)
  (lookup : string -> option (Z * Z)) (body : RegisterBody)
  (rio : ReadIO) (wio : WriteIO) (st : Store) : Outcome Photo * Store :=
  match nonempty (reg_cloudinaryId body) with
  | None => (Fail 400 "cloudinaryId manquant", st)
  | Some _ =>
      serve (register path_basename path_extname uuid now lookup body)
            rio wio st
  end.

(** Load, save, load, save: the bytes each save hands to the two stores,
    and the stores after each save. *)
Definition load_save_twice (rio1 : ReadIO) (wio1 : WriteIO)
  (rio2 : ReadIO) (wio2 : WriteIO) (st : Store)
  : (bytes * Store) * (bytes * Store) :=
  let '(d1, st1) := readDB rio1 st in
  let st2 := writeDB wio1 d1 st1 in
  let '(d2, st3) := readDB rio2 st2 in
  let st4 := writeDB wio2 d2 st3 in
  ((JSON_stringify d1, st2), (JSON_stringify d2, st4)).

End Persistence.

Arguments mkStore {bytes} local_file cloud_raw.
Arguments local_file {bytes} s.
Arguments cloud_raw {bytes} s.

(** A small codec over documents that are either corrupt or hold a photo
    array; it satisfies the round-trip law of JSON. *)
Definition doc : Type := option (list Photo).
Definition doc_stringify (data : list Photo) : doc := Some data.
Definition doc_parse (d : doc) : option (list Photo) := d.

(** ** Order values and reachable collections *)

(** 0, 1, ..., n-1 *)
Definition iota (n : nat) : list Z := map Z.of_nat (seq 0 n).

(** The [order] values of [db] are 0..n-1 in some arrangement. *)
Definition dense_orders (db : list Photo) : Prop :=
  Permutation (map order db) (iota (List.length db)).

(** The [order] value of every element is its array index. *)
Definition indexed_orders (db : list Photo) : Prop :=
  map order db = iota (List.length db).

(** The scope of the public listing: [db.filter(p => p.published)]. *)
Definition published_scope (db : list Photo) : list Photo :=
  filter published db.

(** Position of the last occurrence of [x] in [ids], counted from [i]. *)
Fixpoint last_index (x : string) (ids : list string) (i : nat) : option nat :=
  match ids with
  | [] => None
  | y :: rest =>
      match last_index x rest (S i) with
      | Some j => Some j
      | None => if String.eqb y x then Some i else None
      end
  end.

(** What [forEach_ids f ids i] makes of one object when ids are unique: the
    mutation of the last position at which its id is listed. *)
Definition mark_by (f : nat -> Photo -> Photo) (ids : list string) (i : nat)
  (p : Photo) : Photo :=
  match last_index (id p) ids i with
  | Some j => f j p
  | None => p
  end.

(** Two objects that agree on every field but [order] and [published]. *)
Definition same_but_order_published (p q : Photo) : Prop :=
  set_order 0 (set_published false p) = set_order 0 (set_published false q).

(** Two objects that agree on every field but [order]. *)
Definition same_but_order (p q : Photo) : Prop :=
  set_order 0 p = set_order 0 q.

(** The comparator of the sort is not positive: [a.order - b.order <= 0]. *)
Definition order_le (a b : Photo) : Prop := order a <= order b.

Definition has_order (k : Z) (p : Photo) : bool := order p =? k.

Section Reachable.

Variable path_basename : string -> string -> string.
Variable path_extname : string -> string.

(** Collections the routes can produce from the empty database, every
    write being kept; [crypto.randomUUID()] never returns an id in use. *)
Inductive reachable : list Photo -> Prop :=
| reach_empty : reachable []
| reach_register uuid now lookup body db photo db' :
    reachable db ->
    ~ In uuid (map id db) ->
    register path_basename path_extname uuid now lookup body db
      = Done photo db' ->
    reachable db'
| reach_put i body db db' :
    reachable db -> put_photo i body db = Done tt db' -> reachable db'
| reach_delete destroy i db db' :
    reachable db -> delete_photo destroy i db = Done tt db' -> reachable db'
| reach_publish ids db n db' :
    reachable db -> publish ids db = Done n db' -> reachable db'
| reach_reorder ids db db' :
    reachable db -> reorder ids db = Done tt db' -> reachable db'
| reach_clear db db' :
    reachable db -> clear_photos db = Done tt db' -> reachable db'.

End Reachable.

(** ** Sequences of register requests *)

(** One register request together with what the outside world answers. *)
Record RegisterCall : Type := mkRegisterCall {
  call_uuid : string;
  call_now : string;
  call_lookup : string -> option (Z * Z);
  call_body : RegisterBody
}.

Section RegisterSequence.

Variable path_basename : string -> string -> string.
Variable path_extname : string -> string.

(** The requests are served one after the other, each on the collection the
    previous one wrote; a request answered with 400 writes nothing. *)
Fixpoint register_all (calls : list RegisterCall) (db : list Photo)
  : list Photo :=
  match calls with
  | [] => db
  | c :: rest =>
      match register path_basename path_extname (call_uuid c) (call_now c)
                     (call_lookup c) (call_body c) db with
      | Done _ db' => register_all rest db'
      | Fail _ _ => register_all rest db
      end
  end.

End RegisterSequence.

(** Whether [x] occurs in the list [ids]. *)
Definition listed (ids : list string) (x : string) : bool :=
  existsb (String.eqb x) ids.

(** The position of the last occurrence of [x] in [ids], -1 when there is
    none. *)
Definition position (ids : list string) (x : string) : Z :=
  match last_index x ids 0 with
  | Some j => Z.of_nat j
  | None => -1
  end.

(** ** Sample data *)

(** Stand-ins for Node's path functions in the examples below, which never
    reach them: the photos are registered without an original name. *)
Definition whole_basename (p ext : string) : string := p.
Definition no_extname (p : string) : string := "".

(** A dimension lookup that always throws. *)
Definition no_lookup (cid : string) : option (Z * Z) := None.

Definition call_a : RegisterCall :=
  mkRegisterCall "a" "2024-05-01T10:00:00.000Z" no_lookup
    (mkRegisterBody (Some "atelier-portfolio/photos/a1") None
                    (Some 1920) (Some 1080)).

Definition call_b : RegisterCall :=
  mkRegisterCall "b" "2024-05-02T10:00:00.000Z" no_lookup
    (mkRegisterBody (Some "atelier-portfolio/photos/b2") None
                    (Some 1080) (Some 1920)).

Definition call_c : RegisterCall :=
  mkRegisterCall "c" "2024-05-03T10:00:00.000Z" no_lookup
    (mkRegisterBody (Some "atelier-portfolio/photos/c3") None None None).



(** Two photos registered on the empty database. *)
Definition two_db : list Photo :=
  register_all whole_basename no_extname [call_a; call_b] [].

(** Then only b is published: a keeps order 0, b gets order 0. *)
Definition gap_db : list Photo :=
  match publish (Some ["b"]) two_db with
  | Done _ db' => db'
  | Fail _ _ => two_db
  end.

Definition photo_a : Photo :=
  mkPhoto "a" "atelier-portfolio/photos/a1" "Dune" 1920 1080
          (ratio_of 1920 1080) land 0 false "2024-05-01T10:00:00.000Z".

Definition photo_b : Photo :=
  mkPhoto "b" "atelier-portfolio/photos/b2" "Port" 1080 1920
          (ratio_of 1080 1920) port 1 false "2024-05-02T10:00:00.000Z".

Definition photo_c : Photo :=
  mkPhoto "c" "atelier-portfolio/photos/c3" "Cour" 1000 1000
          (ratio_of 1000 1000) sq 2 false "2024-05-03T10:00:00.000Z".

(** The collection [a, b, c] with orders 0, 1, 2. *)
Definition demo_db : list Photo := [photo_a; photo_b; photo_c].

(** ** requireAuth and POST /api/auth/login *)

(** What the middleware does: [Next user] is [req.user = user; next()],
    [Deny status error] is [res.status(status).json({ error })]. *)
Inductive AuthOutcome (U : Type) : Type :=
| Next (user : U)
| Deny (status : Z) (error : string).

Arguments Next {U} user.
Arguments Deny {U} status error.

(** [const auth = req.headers.authorization || '';
     const token = auth.startsWith('Bearer ') ? auth.slice(7) : null;]
    The header is [None] when the request has none. *)
Definition bearer_token (authorization : option string) : option string :=
  let auth :=
    match authorization with
    | Some a => a
    | None => EmptyString
    end in
  if String.prefix "Bearer " auth
  then Some (String.substring 7 (String.length auth - 7) auth)
  else None.

Section Auth.

(** The payload of a verified token. *)
Variable U : Type.

(** [jwt.verify(token, JWT_SECRET)]: [None] when it throws. *)
Variable jwt_verify : string -> option U.

Definition requireAuth (authorization : option string) : AuthOutcome U :=
  match bearer_token authorization with
  | None => Deny 401 "Non authentifie"
  | Some token =>
      if String.eqb token EmptyString then Deny 401 "Non authentifie"
      else
        match jwt_verify token with
        | Some user => Next user
        | None => Deny 401 "Token invalide ou expire"
        end
  end.

(** An admin route: [app.method(path, requireAuth, handler)]. *)
Definition guarded {A : Type} (handler : list Photo -> Outcome A)
  (authorization : option string) (db : list Photo) : Outcome A :=
  match requireAuth authorization with
  | Next _ => handler db
  | Deny status error => Fail status error
  end.

(** [ADMIN_PASSWORD] *)
Variable ADMIN_PASSWORD : string.

(** The login route; [issued] is what
    [jwt.sign({ role: 'admin' }, JWT_SECRET, { expiresIn: '7d' })] returns,
    [password] is [req.body.password] when it is a string. *)
Definition login (issued : string) (password : option string)
  : AuthOutcome string :=
  match password with
  | Some given =>
      if String.eqb given ADMIN_PASSWORD then Next issued
      else Deny 401 "Mot de passe incorrect"
  | None => Deny 401 "Mot de passe incorrect"
  end.

End Auth.

(** ** GET /api/photos, GET /api/admin/photos, GET /api/health *)

(** The two ways [cldUrl] is called: [cldUrl(id)] and
    [cldUrl(id, { width: 400, crop: 'limit' })]. *)
Inductive UrlOpts : Set := no_opts | thumb_opts.

(** One element of the public listing. *)
Record PublicPhoto : Set := mkPublicPhoto {
  pub_id : string;
  pub_url : string;
  pub_name : string;
  pub_w : Z;
  pub_h : Z;
  pub_orient : Orient;
  pub_ratio : spec_float;
  pub_order : Z
}.

(** One element of the admin listing. *)
Record AdminPhoto : Set := mkAdminPhoto {
  adm_id : string;
  adm_url : string;
  adm_thumbUrl : string;
  adm_name : string;
  adm_w : Z;
  adm_h : Z;
  adm_orient : Orient;
  adm_ratio : spec_float;
  adm_order : Z;
  adm_published : bool;
  adm_createdAt : string;
  adm_cloudinaryId : string
}.

Section Listings.

(** [cldUrl(publicId, opts)], a call into the Cloudinary library. *)
Variable cldUrl : string -> UrlOpts -> string.

Definition public_view (p : Photo) : PublicPhoto :=
  mkPublicPhoto (id p) (cldUrl (cloudinaryId p) no_opts) (name p)
                (w p) (h p) (orient p) (ratio p) (order p).

(** [(await readDB()).filter(p => p.published).map(...)] *)
Definition get_photos (db : list Photo) : list PublicPhoto :=
  map public_view (filter published db).

Definition admin_view (p : Photo) : AdminPhoto :=
  mkAdminPhoto (id p) (cldUrl (cloudinaryId p) no_opts)
               (cldUrl (cloudinaryId p) thumb_opts) (name p)
               (w p) (h p) (orient p) (ratio p) (order p) (published p)
               (createdAt p) (cloudinaryId p).

Definition get_admin_photos (db : list Photo) : list AdminPhoto :=
  map admin_view db.

End Listings.

(** The [photos] field of the health answer. *)
Definition get_health (db : list Photo) : nat := List.length db.

(** ** Reading routes and the clear route over the stores *)

Section ServedReads.

Variable bytes : Type.
Variable JSON_stringify : list Photo -> bytes.
Variable JSON_parse : bytes -> option (list Photo).

(** A route that only reads: [const photos = await readDB(); res.json(...)]. *)
Definition serve_get {A : Type} (view : list Photo -> A) (rio : ReadIO)
  (st : Store bytes) : A * Store bytes :=
  let '(db, st1) := readDB bytes JSON_stringify JSON_parse rio st in
  (view db, st1).

(** DELETE /api/admin/photos.  The images are destroyed with
    [Promise.allSettled], which never rejects; [raw_destroyed] tells whether
    [cloudinary.uploader.destroy(DB_CLD_ID, { resource_type: 'raw' })]
    removed the raw object (the call is wrapped in [try { } catch(e) {}]);
    then [writeDB([])]. *)
Definition serve_clear (rio : ReadIO) (raw_destroyed : bool) (wio : WriteIO)
  (st : Store bytes) : Outcome unit * Store bytes :=
  let '(db, st1) := readDB bytes JSON_stringify JSON_parse rio st in
  let st2 := if raw_destroyed then mkStore (local_file st1) None else st1 in
  (clear_photos db, writeDB bytes JSON_stringify wio [] st2).

(** [readDB] of the earlier version of the server kept in the same file:
    the write of the local copy is not guarded, so when it throws the outer
    [catch] is reached and the function returns [[]]. *)
Definition readDB_legacy (io : ReadIO) (st : Store bytes)
  : list Photo * Store bytes :=
  match read_local bytes JSON_parse st with
  | Some data => (data, st)
  | None =>
      match fetch_cloud bytes JSON_parse io st with
      | Some data =>
          if cache_write io
          then (data, mkStore (Some (JSON_stringify data)) (cloud_raw st))
          else ([], st)
      | None => ([], st)
      end
  end.

End ServedReads.

(** A token check for the examples: the only valid token is "tok". *)
Definition demo_verify (token : string) : option unit :=
  if String.eqb token "tok" then Some tt else None.

(** A URL builder for the examples. *)
Definition demo_url (publicId : string) (opts : UrlOpts) : string :=
  match opts with
  | no_opts => ("https://res.example/" ++ publicId)%string
  | thumb_opts => ("https://res.example/w_400/" ++ publicId)%string
  end.

(** Whether a register request names its blob ([cloudinaryId] is truthy). *)
Definition accepted (c : RegisterCall) : bool :=
  match nonempty (reg_cloudinaryId (call_body c)) with
  | Some _ => true
  | None => false
  end.

(** * Properties *)

(** ** Basic facts about the array helpers *)

Lemma set_order_id v p : id (set_order v p) = id p.
Proof. reflexivity. Qed.

Lemma set_published_id v p : id (set_published v p) = id p.
Proof. reflexivity. Qed.

Lemma apply_patch_id body p : id (apply_patch body p) = id p.
Proof.
  unfold apply_patch.
  destruct (body_name body), (body_order body); reflexivity.
Qed.

Lemma has_id_true i p : has_id i p = true <-> id p = i.
Proof. unfold has_id. apply String.eqb_eq. Qed.

Lemma has_id_false i p : has_id i p = false <-> id p <> i.
Proof. unfold has_id. apply String.eqb_neq. Qed.

Lemma find_has_id_none i db :
  find (has_id i) db = None <-> ~ In i (map id db).
Proof.
  induction db as [|p db IH]; simpl.
  - tauto.
  - destruct (has_id i p) eqn:E.
    + apply has_id_true in E. split; [discriminate | intros H; exfalso; auto].
    + apply has_id_false in E. rewrite IH. tauto.
Qed.

Lemma find_has_id_some i db photo :
  find (has_id i) db = Some photo -> In photo db /\ id photo = i.
Proof.
  intros H. apply find_some in H. destruct H as [H1 H2].
  split; [assumption | now apply has_id_true].
Qed.

Lemma update_found_absent i f db :
  ~ In i (map id db) -> update_found i f db = db.
Proof.
  induction db as [|p db IH]; simpl; intros H.
  - reflexivity.
  - destruct (has_id i p) eqn:E.
    + apply has_id_true in E. exfalso. auto.
    + f_equal. apply IH. tauto.
Qed.

Lemma update_found_split i f db :
  In i (map id db) ->
  exists before photo after,
    db = before ++ photo :: after /\ id photo = i /\
    ~ In i (map id before) /\
    update_found i f db = before ++ f photo :: after.
Proof.
  induction db as [|p db IH]; simpl; intros H.
  - contradiction.
  - destruct (has_id i p) eqn:E.
    + apply has_id_true in E.
      exists [], p, db. simpl. auto.
    + apply has_id_false in E.
      destruct H as [H|H]; [contradiction|].
      destruct (IH H) as (b & q & a & -> & Hq & Hb & Hu).
      exists (p :: b), q, a. simpl. rewrite Hu.
      repeat split; auto. tauto.
Qed.

Lemma update_found_ids i f db :
  (forall p, id (f p) = id p) ->
  map id (update_found i f db) = map id db.
Proof.
  intros Hf. induction db as [|p db IH]; simpl.
  - reflexivity.
  - destruct (has_id i p); simpl; [rewrite Hf | rewrite IH]; reflexivity.
Qed.

Lemma update_found_length i f db :
  List.length (update_found i f db) = List.length db.
Proof.
  induction db as [|p db IH]; simpl.
  - reflexivity.
  - destruct (has_id i p); simpl; auto.
Qed.

(** With unique ids, mutating the object found by id is a [map]. *)
Lemma update_found_map i f db :
  NoDup (map id db) ->
  update_found i f db = map (fun p => if has_id i p then f p else p) db.
Proof.
  induction db as [|p db IH]; simpl; intros H.
  - reflexivity.
  - inversion H as [|? ? Hnotin Hnodup]; subst.
    destruct (has_id i p) eqn:E.
    + f_equal. apply has_id_true in E. subst i.
      rewrite <- (update_found_absent (id p) f db Hnotin) at 1.
      apply IH. assumption.
    + f_equal. apply IH. assumption.
Qed.

Lemma forEach_idx_length f i db :
  List.length (forEach_idx f i db) = List.length db.
Proof.
  revert i. induction db as [|p db IH]; simpl; intros i; auto.
Qed.

Lemma forEach_idx_ids f i db :
  (forall k p, id (f k p) = id p) ->
  map id (forEach_idx f i db) = map id db.
Proof.
  intros Hf. revert i. induction db as [|p db IH]; simpl; intros i.
  - reflexivity.
  - rewrite Hf, IH. reflexivity.
Qed.

Lemma forEach_idx_nth f i db n p :
  nth_error db n = Some p ->
  nth_error (forEach_idx f i db) n = Some (f (i + n)%nat p).
Proof.
  revert i n. induction db as [|q db IH]; intros i n H.
  - destruct n; discriminate.
  - destruct n as [|n]; simpl in *.
    + injection H as ->. now rewrite Nat.add_0_r.
    + rewrite (IH (S i) n H). f_equal. f_equal. lia.
Qed.

Lemma forEach_idx_orders f i db :
  (forall k p, order (f k p) = Z.of_nat k) ->
  map order (forEach_idx f i db) = map Z.of_nat (seq i (List.length db)).
Proof.
  intros Hf. revert i. induction db as [|p db IH]; simpl; intros i.
  - reflexivity.
  - rewrite Hf, IH. reflexivity.
Qed.

Lemma forEach_idx_indexed f db :
  (forall k p, order (f k p) = Z.of_nat k) ->
  indexed_orders (forEach_idx f 0 db).
Proof.
  intros Hf. unfold indexed_orders, iota.
  rewrite forEach_idx_length. now apply forEach_idx_orders.
Qed.

Lemma renumber_indexed db : indexed_orders (renumber db).
Proof. apply forEach_idx_indexed. reflexivity. Qed.

Lemma indexed_dense db : indexed_orders db -> dense_orders db.
Proof.
  unfold indexed_orders, dense_orders. intros ->. apply Permutation_refl.
Qed.

Lemma renumber_same_but_order db :
  map (set_order 0) (renumber db) = map (set_order 0) db.
Proof.
  unfold renumber. generalize 0%nat.
  induction db as [|p db IH]; simpl; intros i.
  - reflexivity.
  - rewrite IH. reflexivity.
Qed.

Lemma filter_not_id_ids i db :
  map id (filter (fun p => negb (has_id i p)) db)
  = filter (fun x => negb (String.eqb x i)) (map id db).
Proof.
  induction db as [|p db IH]; simpl.
  - reflexivity.
  - unfold has_id at 1. destruct (String.eqb (id p) i); simpl; now rewrite IH.
Qed.

Lemma filter_not_id_absent i db :
  ~ In i (map id (filter (fun p => negb (has_id i p)) db)).
Proof.
  rewrite in_map_iff. intros (p & Hp & Hin).
  apply filter_In in Hin. destruct Hin as [_ Hin].
  apply negb_true_iff, has_id_false in Hin. contradiction.
Qed.

(** ** Geometry classification *)

Lemma orient_of_land r : js_lt js_1_15 r = true -> orient_of r = land.
Proof. intros H. unfold orient_of. now rewrite H. Qed.

(** A JS number below 0.87 is not above 1.15. *)
Lemma below_not_above r : js_lt r js_0_87 = true -> js_lt js_1_15 r = false.
Proof.
  assert (E87 : js_0_87 = S754_finite false 7836263351624663 (-53))
    by (vm_compute; reflexivity).
  assert (E115 : js_1_15 = S754_finite false 5179139571476070 (-52))
    by (vm_compute; reflexivity).
  rewrite E87, E115. unfold js_lt, SFltb.
  destruct r as [s | s | | s m e]; cbn [SFcompare].
  - reflexivity.
  - destruct s; [reflexivity | discriminate].
  - reflexivity.
  - destruct s; [reflexivity|].
    destruct (Z.compare_spec e (-53)) as [He | He | He].
    + subst e. reflexivity.
    + intros _. destruct (Z.compare_spec (-52) e); [lia | lia | reflexivity].
    + discriminate.
Qed.

Lemma orient_of_port r : js_lt r js_0_87 = true -> orient_of r = port.
Proof.
  intros H. unfold orient_of. rewrite (below_not_above r H). now rewrite H.
Qed.

Lemma orient_of_sq r :
  js_lt js_1_15 r = false -> js_lt r js_0_87 = false -> orient_of r = sq.
Proof. intros H1 H2. unfold orient_of. now rewrite H1, H2. Qed.

Lemma ratio_of_nonzero width height :
  width <> 0 -> height <> 0 ->
  ratio_of width height = js_div (js_of_Z width) (js_of_Z height).
Proof.
  intros Hw Hh. unfold ratio_of, truthy.
  destruct (Z.eqb_spec width 0); [contradiction|].
  destruct (Z.eqb_spec height 0); [contradiction|]. reflexivity.
Qed.

Lemma ratio_of_zero width height :
  width = 0 \/ height = 0 -> ratio_of width height = js_of_Z 1.
Proof.
  intros [-> | ->]; unfold ratio_of, truthy.
  - reflexivity.
  - rewrite andb_comm. reflexivity.
Qed.

(** C6 (as the code has it).  The classifier takes ratio = width / height,
    the quotient of JS numbers, when both dimensions are non-zero, in
    particular when both are greater than 0, and ratio = 1 when a dimension
    is 0; the orientation is landscape when ratio > 1.15, portrait when
    ratio < 0.87 and square otherwise, 1.15 and 0.87 being the JS literals.
    1920x1080 is landscape with ratio 1.7777777777777777, 1080x1920 is
    portrait, 1000x1000 is square and 0x0 is square with ratio 1.  The
    quotient is rounded before it is compared: 3450000000000015 x
    3000000000000013, just above 1.15 as a fraction, has the ratio 1.15 and
    is square, and 174000000000020 x 200000000000023, just below 0.87, has
    the ratio 0.87 and is square. *)
Theorem classify_thresholds :
  (forall width height : Z,
      width <> 0 -> height <> 0 ->
      fst (classify width height) = js_div (js_of_Z width) (js_of_Z height)) /\
  (forall width height : Z,
      0 < width -> 0 < height ->
      fst (classify width height) = js_div (js_of_Z width) (js_of_Z height)) /\
  (forall width height : Z,
      width = 0 \/ height = 0 -> classify width height = (js_of_Z 1, sq)) /\
  (forall width height : Z,
      let r := fst (classify width height) in
      let o := snd (classify width height) in
      (js_lt js_1_15 r = true -> o = land) /\
      (js_lt r js_0_87 = true -> o = port) /\
      (js_lt js_1_15 r = false -> js_lt r js_0_87 = false -> o = sq)) /\
  (js_of_Z 1 = S754_finite false 4503599627370496 (-52) /\
   js_1_15 = S754_finite false 5179139571476070 (-52) /\
   js_0_87 = S754_finite false 7836263351624663 (-53)) /\
  classify 1920 1080 = (S754_finite false 8006399337547548 (-52), land) /\
  snd (classify 1080 1920) = port /\
  snd (classify 1000 1000) = sq /\
  classify 0 0 = (js_of_Z 1, sq) /\
  classify 3450000000000015 3000000000000013 = (js_1_15, sq) /\
  classify 174000000000020 200000000000023 = (js_0_87, sq).
Proof.
  split; [|split; [|split; [|split]]].
  - intros width height Hw Hh. now apply ratio_of_nonzero.
  - intros width height Hw Hh. apply ratio_of_nonzero; lia.
  - intros width height Hz. unfold classify.
    now rewrite (ratio_of_zero width height Hz).
  - intros width height. unfold classify. cbn [fst snd].
    repeat split.
    + apply orient_of_land.
    + apply orient_of_port.
    + apply orient_of_sq.
  - repeat split; vm_compute; reflexivity.
Qed.

Lemma classify_thresholds_witness :
  fst (classify 1600 1200) = js_div (js_of_Z 1600) (js_of_Z 1200) /\
  classify 0 1200 = (js_of_Z 1, sq) /\
  snd (classify 1600 1200) = land.
Proof.
  destruct classify_thresholds as (_ & Hratio & Hzero & Horient & _).
  split; [|split].
  - apply (Hratio 1600 1200); lia.
  - apply (Hzero 0 1200). left. reflexivity.
  - destruct (Horient 1600 1200) as (Hland & _ & _).
    apply Hland. vm_compute. reflexivity.
Defined.

(** C6, as stated, fails for a negative dimension, which [parseInt] lets
    through: with width -5 and height 10 the dimensions are not both
    greater than 0, yet the ratio is -5/10 = -0.5, not 1, and the
    orientation is portrait, not square. *)
Lemma classify_negative_width :
  ~ (0 < -5 /\ 0 < 10) /\
  parseInt_or_0 (Some (-5)) = -5 /\
  classify (-5) 10 = (js_div (js_of_Z (-5)) (js_of_Z 10), port) /\
  fst (classify (-5) 10) = S754_finite true 4503599627370496 (-53) /\
  fst (classify (-5) 10) <> js_of_Z 1 /\
  snd (classify (-5) 10) <> sq.
Proof.
  split; [lia|]. split; [reflexivity|].
  split; [vm_compute; reflexivity|].
  split; [vm_compute; reflexivity|].
  split; vm_compute; discriminate.
Qed.

(** ** PUT /api/admin/photos/:id *)

(** C7. The update fails with 404 exactly when no record has the id.
    Otherwise the first record with that id is replaced by its patched
    version and every other record of the array is left as it was; the
    patch sets [name] and [order] only when the field is present in the
    body and touches no other field. *)
Theorem put_photo_frame (i : string) (body : PutBody) (db : list Photo) :
  (put_photo i body db = Fail 404 "Photo introuvable"
   <-> ~ In i (map id db)) /\
  (In i (map id db) ->
   exists before photo after,
     db = before ++ photo :: after /\
     id photo = i /\
     ~ In i (map id before) /\
     put_photo i body db
     = Done tt (before ++ apply_patch body photo :: after)) /\
  (forall photo,
      let photo' := apply_patch body photo in
      name photo' = match body_name body with
                    | Some v => v
                    | None => name photo
                    end /\
      order photo' = match body_order body with
                     | Some v => v
                     | None => order photo
                     end /\
      id photo' = id photo /\
      cloudinaryId photo' = cloudinaryId photo /\
      w photo' = w photo /\
      h photo' = h photo /\
      ratio photo' = ratio photo /\
      orient photo' = orient photo /\
      published photo' = published photo /\
      createdAt photo' = createdAt photo).
Proof.
  split; [|split].
  - unfold put_photo. rewrite <- find_has_id_none.
    destruct (find (has_id i) db); split; intros H; congruence.
  - intros Hin. unfold put_photo.
    destruct (find (has_id i) db) eqn:E.
    + destruct (update_found_split i (apply_patch body) db Hin)
        as (b & q & a & Hdb & Hq & Hb & Hu).
      exists b, q, a. rewrite Hu. auto.
    + apply find_has_id_none in E. contradiction.
  - intros photo. unfold apply_patch.
    destruct (body_name body), (body_order body); simpl; repeat split.
Qed.

Lemma put_photo_frame_witness :
  exists before photo after,
    demo_db = before ++ photo :: after /\
    id photo = "b" /\
    ~ In "b" (map id before) /\
    put_photo "b" (mkPutBody (Some "Quai") None) demo_db
    = Done tt (before ++ apply_patch (mkPutBody (Some "Quai") None) photo
                 :: after).
Proof.
  apply (put_photo_frame "b" (mkPutBody (Some "Quai") None) demo_db).
  simpl. auto.
Defined.

(** ** DELETE /api/admin/photos/:id *)

Lemma delete_photo_done destroy i db :
  In i (map id db) ->
  delete_photo destroy i db
  = Done tt (renumber (filter (fun p => negb (has_id i p)) db)).
Proof.
  intros Hin. unfold delete_photo.
  destruct (find (has_id i) db) eqn:E.
  - reflexivity.
  - apply find_has_id_none in E. contradiction.
Qed.

Lemma delete_photo_fail destroy i db :
  delete_photo destroy i db = Fail 404 "Photo introuvable"
  <-> ~ In i (map id db).
Proof.
  unfold delete_photo. rewrite <- find_has_id_none.
  destruct (find (has_id i) db); split; intros H; congruence.
Qed.

(** C5. Deleting fails with 404 exactly when no record has the id.  When
    the id is present the records with that id are removed, the remaining
    ones keep their array order and every field but [order], their [order]
    values become 0..n-1, and deleting the same id again fails with 404.
    Whether the deletion of the binary at Cloudinary succeeds or throws
    makes no difference to the result. *)
Theorem delete_photo_spec (destroy : string -> bool) (i : string)
  (db : list Photo) :
  (delete_photo destroy i db = Fail 404 "Photo introuvable"
   <-> ~ In i (map id db)) /\
  (In i (map id db) ->
   exists db',
     delete_photo destroy i db = Done tt db' /\
     ~ In i (map id db') /\
     map id db' = filter (fun x => negb (String.eqb x i)) (map id db) /\
     map (set_order 0) db'
     = map (set_order 0) (filter (fun p => negb (has_id i p)) db) /\
     indexed_orders db' /\
     dense_orders db' /\
     delete_photo destroy i db' = Fail 404 "Photo introuvable") /\
  (forall destroy' : string -> bool,
      delete_photo destroy' i db = delete_photo destroy i db).
Proof.
  split; [|split].
  - apply delete_photo_fail.
  - intros Hin.
    set (kept := filter (fun p => negb (has_id i p)) db).
    assert (Hids : map id (renumber kept) = map id kept).
    { unfold renumber. apply forEach_idx_ids. intros. apply set_order_id. }
    assert (Habs : ~ In i (map id (renumber kept))).
    { rewrite Hids. apply filter_not_id_absent. }
    exists (renumber kept). repeat split.
    + now apply delete_photo_done.
    + exact Habs.
    + rewrite Hids. apply filter_not_id_ids.
    + apply renumber_same_but_order.
    + apply renumber_indexed.
    + apply indexed_dense, renumber_indexed.
    + now apply delete_photo_fail.
  - intros destroy'. unfold delete_photo.
    destruct (find (has_id i) db); reflexivity.
Qed.

Lemma delete_photo_spec_witness :
  exists db',
    delete_photo (fun _ => false) "b" demo_db = Done tt db' /\
    ~ In "b" (map id db') /\
    map id db' = filter (fun x => negb (String.eqb x "b")) (map id demo_db) /\
    map (set_order 0) db'
    = map (set_order 0) (filter (fun p => negb (has_id "b" p)) demo_db) /\
    indexed_orders db' /\
    dense_orders db' /\
    delete_photo (fun _ => false) "b" db' = Fail 404 "Photo introuvable".
Proof.
  apply (delete_photo_spec (fun _ => false) "b" demo_db).
  simpl. auto.
Defined.

(** ** POST /api/admin/publish *)

Lemma forEach_idx_published i db p :
  In p (forEach_idx mark_published i db) -> published p = true.
Proof.
  revert i. induction db as [|q db IH]; simpl; intros i H.
  - contradiction.
  - destruct H as [<- | H]; [reflexivity | eauto].
Qed.

Lemma filter_published_all db :
  (forall p, In p db -> published p = true) -> filter published db = db.
Proof.
  induction db as [|q db IH]; simpl; intros H.
  - reflexivity.
  - rewrite (H q (or_introl eq_refl)). f_equal. apply IH. auto.
Qed.

Lemma filter_published_none db :
  (forall p, In p db -> published p = false) -> filter published db = [].
Proof.
  induction db as [|q db IH]; simpl; intros H.
  - reflexivity.
  - rewrite (H q (or_introl eq_refl)). apply IH. auto.
Qed.

Lemma unpublished_all db p :
  In p (map (set_published false) db) -> published p = false.
Proof.
  rewrite in_map_iff. intros (q & <- & _). reflexivity.
Qed.

(** C10. With the empty id list the publish route takes the list branch:
    every record ends up unpublished, nothing else changes and the reported
    count is 0.  Without a list every record ends up published and the
    reported count is the size of the collection. *)
Theorem publish_empty_list_unpublishes (db : list Photo) :
  (publish (Some []) db = Done 0%nat (map (set_published false) db) /\
   Forall (fun p => published p = false) (map (set_published false) db)) /\
  (exists db',
     publish None db = Done (List.length db) db' /\
     List.length db' = List.length db /\
     map id db' = map id db /\
     Forall (fun p => published p = true) db').
Proof.
  split.
  - split.
    + unfold publish. simpl.
      rewrite filter_published_none by apply unpublished_all. reflexivity.
    + apply Forall_forall. apply unpublished_all.
  - exists (forEach_idx mark_published 0 (map (set_published false) db)).
    assert (Hlen : List.length
                     (forEach_idx mark_published 0
                        (map (set_published false) db)) = List.length db).
    { now rewrite forEach_idx_length, length_map. }
    repeat split.
    + unfold publish.
      rewrite filter_published_all by apply forEach_idx_published.
      now rewrite Hlen.
    + exact Hlen.
    + rewrite forEach_idx_ids by reflexivity.
      rewrite map_map. reflexivity.
    + apply Forall_forall. apply forEach_idx_published.
Qed.

(** *** The loop over a list of ids *)

Lemma last_index_none x ids i : last_index x ids i = None <-> ~ In x ids.
Proof.
  revert i. induction ids as [|y ids IH]; simpl; intros i.
  - tauto.
  - destruct (last_index x ids (S i)) eqn:E.
    + assert (Hin : In x ids).
      { destruct (in_dec string_dec x ids) as [H|H]; [exact H|].
        apply (IH (S i)) in H. congruence. }
      split; [discriminate | intros H; exfalso; auto].
    + apply IH in E.
      destruct (String.eqb_spec y x) as [->|Hne].
      * split; [discriminate | intros H; exfalso; auto].
      * split; [intros _ [H|H]; auto | reflexivity].
Qed.

Lemma last_index_some x ids i j :
  last_index x ids i = Some j ->
  (i <= j)%nat /\
  nth_error ids (j - i) = Some x /\
  forall k, nth_error ids k = Some x -> (k <= j - i)%nat.
Proof.
  revert i j. induction ids as [|y ids IH]; simpl; intros i j H.
  - discriminate.
  - destruct (last_index x ids (S i)) eqn:E.
    + injection H as ->.
      destruct (IH (S i) j E) as (Hle & Hnth & Hlast).
      replace (j - i)%nat with (S (j - S i)) by lia.
      repeat split; [lia | exact Hnth |].
      intros [|k] Hk; [lia|]. simpl in Hk. apply Hlast in Hk. lia.
    + destruct (String.eqb_spec y x) as [->|Hne]; [|discriminate].
      injection H as <-. rewrite Nat.sub_diag.
      repeat split; [lia|].
      intros [|k] Hk; [lia|]. simpl in Hk.
      apply nth_error_In in Hk. apply (last_index_none x ids (S i)) in E.
      contradiction.
Qed.

Lemma forEach_ids_ids f ids i db :
  (forall j p, id (f j p) = id p) ->
  map id (forEach_ids f ids i db) = map id db.
Proof.
  intros Hf. revert i db.
  induction ids as [|x ids IH]; simpl; intros i db.
  - reflexivity.
  - rewrite IH. apply update_found_ids. intros p. apply Hf.
Qed.

(** With unique ids the loop is a [map]: each object listed is mutated as at
    the last position of its id, the others are untouched. *)
Lemma forEach_ids_map f ids i db :
  (forall j p, id (f j p) = id p) ->
  (forall j k p, f j (f k p) = f j p) ->
  NoDup (map id db) ->
  forEach_ids f ids i db = map (mark_by f ids i) db.
Proof.
  intros Hid Hover. revert i db.
  induction ids as [|x ids IH]; simpl; intros i db Hnd.
  - unfold mark_by. simpl. now rewrite map_id.
  - rewrite IH by (rewrite update_found_ids; auto).
    rewrite update_found_map by assumption.
    rewrite map_map. apply map_ext. intros p.
    unfold mark_by, has_id. simpl.
    destruct (String.eqb_spec (id p) x) as [Hx|Hx].
    + rewrite Hid.
      destruct (last_index (id p) ids (S i)).
      * apply Hover.
      * subst x. now rewrite String.eqb_refl.
    + destruct (last_index (id p) ids (S i)); [reflexivity|].
      destruct (String.eqb_spec x (id p)); [congruence | reflexivity].
Qed.

Lemma Forall2_map_self {A B : Type} (P : A -> B -> Prop) (g : A -> B) l :
  (forall x, In x l -> P x (g x)) -> Forall2 P l (map g l).
Proof.
  induction l as [|a l IH]; simpl; intros H; constructor; auto.
Qed.

Lemma mark_published_over j k p :
  mark_published j (mark_published k p) = mark_published j p.
Proof. reflexivity. Qed.

Lemma mark_order_over j k p : mark_order j (mark_order k p) = mark_order j p.
Proof. reflexivity. Qed.

Lemma publish_list_map ids db :
  NoDup (map id db) ->
  forEach_ids mark_published ids 0 (map (set_published false) db)
  = map (fun p => mark_by mark_published ids 0 (set_published false p)) db.
Proof.
  intros Hnd. rewrite forEach_ids_map.
  - apply map_map.
  - reflexivity.
  - apply mark_published_over.
  - now rewrite map_map.
Qed.

(** C3. Without an id list every record ends up published, the array keeps
    its arrangement and each [order] becomes the array index.  With an id
    list, on a collection whose ids are unique, the array keeps its
    arrangement, a record is published exactly when its id is listed, its
    [order] is then a position of its id in the list (the last one when the
    id is listed twice), and a record that is not listed is unpublished
    with its [order] untouched; an id of the list that no record has
    changes nothing and raises no error.  On [a, b, c] the list ["a", "c"]
    gives a published with order 0, c published with order 1 and b
    unpublished. *)
Theorem publish_spec (ids : list string) (db : list Photo) :
  (exists db',
     publish None db = Done (List.length db) db' /\
     map id db' = map id db /\
     indexed_orders db' /\
     Forall2 (fun p p' =>
                published p' = true /\ same_but_order_published p' p)
             db db') /\
  (NoDup (map id db) ->
   exists db',
     publish (Some ids) db = Done (List.length (published_scope db')) db' /\
     map id db' = map id db /\
     Forall2 (fun p p' =>
                same_but_order_published p' p /\
                (In (id p) ids ->
                 published p' = true /\
                 exists j,
                   nth_error ids j = Some (id p) /\
                   order p' = Z.of_nat j /\
                   forall k, nth_error ids k = Some (id p) -> (k <= j)%nat) /\
                (~ In (id p) ids ->
                 published p' = false /\ order p' = order p))
             db db') /\
  publish (Some ["a"; "c"]) demo_db
  = Done 2%nat [set_published true photo_a; photo_b;
                set_order 1 (set_published true photo_c)].
Proof.
  split; [|split].
  - exists (forEach_idx mark_published 0 (map (set_published false) db)).
    repeat split.
    + unfold publish.
      rewrite filter_published_all by apply forEach_idx_published.
      now rewrite forEach_idx_length, length_map.
    + rewrite forEach_idx_ids by reflexivity. now rewrite map_map.
    + apply forEach_idx_indexed. reflexivity.
    + generalize 0%nat. induction db as [|q db IH]; intros i; simpl.
      * constructor.
      * constructor; [split; reflexivity | apply IH].
  - intros Hnd.
    exists (map (fun p => mark_by mark_published ids 0 (set_published false p))
              db).
    repeat split.
    + unfold publish. now rewrite publish_list_map.
    + rewrite map_map. apply map_ext. intros p. unfold mark_by. simpl.
      destruct (last_index (id p) ids 0); reflexivity.
    + apply Forall2_map_self. intros p _. unfold mark_by. simpl.
      destruct (last_index (id p) ids 0) as [j|] eqn:E.
      * apply last_index_some in E. destruct E as (_ & Hnth & Hlast).
        rewrite Nat.sub_0_r in Hnth, Hlast.
        split; [reflexivity|]. split.
        -- intros _. split; [reflexivity|]. exists j. auto.
        -- intros Hnot. apply nth_error_In in Hnth. contradiction.
      * apply last_index_none in E.
        split; [reflexivity|]. split.
        -- intros Hin. contradiction.
        -- intros _. split; reflexivity.
  - reflexivity.
Qed.

Lemma publish_spec_witness :
  exists db',
    publish (Some ["c"; "zz"; "a"]) demo_db
    = Done (List.length (published_scope db')) db' /\
    map id db' = map id demo_db /\
    Forall2 (fun p p' =>
               same_but_order_published p' p /\
               (In (id p) ["c"; "zz"; "a"] ->
                published p' = true /\
                exists j,
                  nth_error ["c"; "zz"; "a"] j = Some (id p) /\
                  order p' = Z.of_nat j /\
                  forall k, nth_error ["c"; "zz"; "a"] k = Some (id p) ->
                            (k <= j)%nat) /\
               (~ In (id p) ["c"; "zz"; "a"] ->
                published p' = false /\ order p' = order p))
            demo_db db'.
Proof.
  apply (publish_spec ["c"; "zz"; "a"] demo_db).
  repeat constructor; simpl; intuition discriminate.
Defined.

(** ** POST /api/admin/reorder *)

Lemma insert_by_order_perm p l : Permutation (insert_by_order p l) (p :: l).
Proof.
  induction l as [|q l IH]; simpl.
  - apply Permutation_refl.
  - destruct (order p <=? order q).
    + apply Permutation_refl.
    + eapply Permutation_trans; [apply perm_skip, IH | apply perm_swap].
Qed.

Lemma sort_by_order_perm db : Permutation (sort_by_order db) db.
Proof.
  induction db as [|p db IH]; simpl.
  - apply Permutation_refl.
  - eapply Permutation_trans; [apply insert_by_order_perm|].
    now apply perm_skip.
Qed.

Lemma insert_by_order_hd q p l :
  order_le q p -> HdRel order_le q l -> HdRel order_le q (insert_by_order p l).
Proof.
  intros Hqp Hql. destruct l as [|r l]; simpl.
  - now constructor.
  - destruct (order p <=? order r).
    + now constructor.
    + constructor. now inversion Hql.
Qed.

Lemma insert_by_order_sorted p l :
  Sorted order_le l -> Sorted order_le (insert_by_order p l).
Proof.
  induction 1 as [|q l Hs IH Hhd]; simpl.
  - repeat constructor.
  - destruct (Z.leb_spec (order p) (order q)) as [Hle|Hgt].
    + constructor; [now constructor | now constructor].
    + constructor; [exact IH|].
      apply insert_by_order_hd; [unfold order_le; lia | exact Hhd].
Qed.

Lemma sort_by_order_sorted db : Sorted order_le (sort_by_order db).
Proof.
  induction db as [|p db IH]; simpl.
  - constructor.
  - now apply insert_by_order_sorted.
Qed.

Lemma insert_by_order_stable k p l :
  filter (has_order k) (insert_by_order p l) = filter (has_order k) (p :: l).
Proof.
  induction l as [|q l IH].
  - reflexivity.
  - cbn [insert_by_order].
    destruct (Z.leb_spec (order p) (order q)) as [Hle|Hgt].
    + reflexivity.
    + cbn [filter] in *. rewrite IH. unfold has_order.
      destruct (Z.eqb_spec (order p) k), (Z.eqb_spec (order q) k);
        try reflexivity.
      lia.
Qed.

(** The sort keeps the arrangement of the objects of equal [order]. *)
Lemma sort_by_order_stable k db :
  filter (has_order k) (sort_by_order db) = filter (has_order k) db.
Proof.
  induction db as [|p db IH].
  - reflexivity.
  - cbn [sort_by_order fold_right]. rewrite insert_by_order_stable.
    cbn [filter]. fold (sort_by_order db). now rewrite IH.
Qed.

(** On [a, b, c] the list ["b", "a"] gives b, a, c as soon as the order
    that c keeps is at least 1. *)
Lemma reorder_b_a pa pb pc :
  id pa = "a" -> id pb = "b" -> id pc = "c" -> 1 <= order pc ->
  reorder (Some ["b"; "a"]) [pa; pb; pc]
  = Done tt [set_order 0 pb; set_order 1 pa; pc].
Proof.
  intros Ha Hb Hc Hord. unfold reorder. f_equal.
  cbn [forEach_ids update_found]. unfold has_id.
  rewrite Ha, Hb. cbn [String.eqb Ascii.eqb Bool.eqb].
  cbn [update_found]. unfold has_id. rewrite Ha. simpl String.eqb. cbn iota.
  unfold sort_by_order, mark_order. simpl.
  destruct (Z.leb_spec 0 (order pc)); [|lia]. simpl.
  destruct (Z.leb_spec 1 (order pc)); [|lia]. reflexivity.
Qed.

(** C4. Reordering fails (with 400) exactly when the argument is not a
    list.  With a list, every record whose id is listed gets as [order] a
    position of its id in the list (the last one when listed twice), the
    other records keep their [order] and no other field changes (ids being
    unique); the array written is then that collection sorted by [order]:
    the same records, in non-decreasing [order], records of equal [order]
    in their previous arrangement.  On [a, b, c] the list ["b", "a"] gives
    b, a, c whenever the order c keeps is at least 1, as with the orders
    0, 1, 2. *)
Theorem reorder_spec (ids : list string) (db : list Photo) :
  (forall arg,
      (exists status error, reorder arg db = Fail status error)
      <-> arg = None) /\
  reorder None db = Fail 400 "ids requis" /\
  (exists marked db',
     reorder (Some ids) db = Done tt db' /\
     marked = forEach_ids mark_order ids 0 db /\
     (NoDup (map id db) ->
      Forall2 (fun p p' =>
                 same_but_order p' p /\
                 (In (id p) ids ->
                  exists j,
                    nth_error ids j = Some (id p) /\
                    order p' = Z.of_nat j /\
                    forall k, nth_error ids k = Some (id p) -> (k <= j)%nat) /\
                 (~ In (id p) ids -> order p' = order p))
              db marked) /\
     Permutation db' marked /\
     Sorted order_le db' /\
     (forall k, filter (has_order k) db' = filter (has_order k) marked)) /\
  (forall pa pb pc,
      id pa = "a" -> id pb = "b" -> id pc = "c" -> 1 <= order pc ->
      reorder (Some ["b"; "a"]) [pa; pb; pc]
      = Done tt [set_order 0 pb; set_order 1 pa; pc]) /\
  reorder (Some ["b"; "a"]) demo_db
  = Done tt [set_order 0 photo_b; set_order 1 photo_a; photo_c].
Proof.
  split; [|split; [|split; [|split]]].
  - intros [l|]; split.
    + intros (status & error & H). discriminate.
    + discriminate.
    + reflexivity.
    + intros _. exists 400, "ids requis". reflexivity.
  - reflexivity.
  - exists (forEach_ids mark_order ids 0 db).
    exists (sort_by_order (forEach_ids mark_order ids 0 db)).
    repeat split.
    + intros Hnd.
      rewrite forEach_ids_map;
        [| reflexivity | apply mark_order_over | assumption].
      apply Forall2_map_self. intros p _. unfold mark_by.
      destruct (last_index (id p) ids 0) as [j|] eqn:E.
      * apply last_index_some in E. destruct E as (_ & Hnth & Hlast).
        rewrite Nat.sub_0_r in Hnth, Hlast.
        split; [reflexivity|]. split.
        -- intros _. exists j. auto.
        -- intros Hnot. apply nth_error_In in Hnth. contradiction.
      * apply last_index_none in E.
        split; [reflexivity|]. split.
        -- intros Hin. contradiction.
        -- reflexivity.
    + apply sort_by_order_perm.
    + apply sort_by_order_sorted.
    + intros k. apply sort_by_order_stable.
  - apply reorder_b_a.
  - reflexivity.
Qed.

Lemma reorder_spec_witness :
  exists marked db',
    reorder (Some ["c"; "a"]) demo_db = Done tt db' /\
    marked = [set_order 1 photo_a; photo_b; set_order 0 photo_c] /\
    db' = [set_order 0 photo_c; set_order 1 photo_a; photo_b] /\
    Forall2 (fun p p' =>
               same_but_order p' p /\
               (In (id p) ["c"; "a"] ->
                exists j,
                  nth_error ["c"; "a"] j = Some (id p) /\
                  order p' = Z.of_nat j /\
                  forall k, nth_error ["c"; "a"] k = Some (id p) ->
                            (k <= j)%nat) /\
               (~ In (id p) ["c"; "a"] -> order p' = order p))
            demo_db marked.
Proof.
  destruct (reorder_spec ["c"; "a"] demo_db)
    as (_ & _ & (marked & db' & Hdone & Hmarked & Hfields & _) & _ & _).
  exists marked, db'. repeat split.
  - exact Hdone.
  - exact Hmarked.
  - vm_compute in Hdone. injection Hdone as <-. reflexivity.
  - apply Hfields. repeat constructor; simpl; intuition discriminate.
Defined.

(** ** readDB and writeDB *)

Section PersistenceFacts.

Variable bytes : Type.
Variable JSON_stringify : list Photo -> bytes.
Variable JSON_parse : bytes -> option (list Photo).

Local Abbreviation readDB := (readDB bytes JSON_stringify JSON_parse).
Local Abbreviation writeDB := (writeDB bytes JSON_stringify).
Local Abbreviation read_local := (read_local bytes JSON_parse).
Local Abbreviation fetch_cloud := (fetch_cloud bytes JSON_parse).
Local Abbreviation load_save_twice :=
  (load_save_twice bytes JSON_stringify JSON_parse).

Lemma readDB_value io st :
  fst (readDB io st)
  = match read_local st with
    | Some data => data
    | None =>
        match fetch_cloud io st with
        | Some data => data
        | None => []
        end
    end.
Proof.
  unfold readDB.
  destruct (read_local st); [reflexivity|].
  destruct (fetch_cloud io st); reflexivity.
Qed.

Lemma read_local_none (st : Store bytes) :
  local_file st = None \/
  (exists s, local_file st = Some s /\ JSON_parse s = None) ->
  read_local st = None.
Proof.
  unfold read_local.
  intros [-> | (s & -> & Hs)]; [reflexivity | exact Hs].
Qed.

Lemma fetch_cloud_none io (st : Store bytes) :
  fetch_up io = false \/ cloud_raw st = None \/
  (exists b, cloud_raw st = Some b /\ JSON_parse b = None) ->
  fetch_cloud io st = None.
Proof.
  unfold fetch_cloud.
  intros [-> | [-> | (b & -> & Hb)]];
    [reflexivity | now destruct (fetch_up io) | now destruct (fetch_up io)].
Qed.

(** C2. [readDB] returns a collection in every state of the two copies.
    (a) When the local file exists and parses, its content is returned
    and nothing is written.  (b) When it does not, and the fetch of the
    raw object succeeds and parses, that snapshot is returned and is
    written to the local file (as its JSON text) whenever the disk takes
    the write; the raw object is untouched.  (c) When both fail, the
    empty collection is returned and nothing is written. *)
Theorem readDB_never_fails (io : ReadIO) (st : Store bytes) :
  (forall s data,
      local_file st = Some s -> JSON_parse s = Some data ->
      readDB io st = (data, st)) /\
  (forall b data,
      local_file st = None \/
      (exists s, local_file st = Some s /\ JSON_parse s = None) ->
      fetch_up io = true -> cloud_raw st = Some b ->
      JSON_parse b = Some data ->
      fst (readDB io st) = data /\
      cloud_raw (snd (readDB io st)) = cloud_raw st /\
      (cache_write io = true ->
       local_file (snd (readDB io st)) = Some (JSON_stringify data)) /\
      (cache_write io = false -> snd (readDB io st) = st)) /\
  (local_file st = None \/
   (exists s, local_file st = Some s /\ JSON_parse s = None) ->
   fetch_up io = false \/ cloud_raw st = None \/
   (exists b, cloud_raw st = Some b /\ JSON_parse b = None) ->
   readDB io st = ([], st)) /\
  fst (readDB io st)
  = match read_local st with
    | Some data => data
    | None =>
        match fetch_cloud io st with
        | Some data => data
        | None => []
        end
    end.
Proof.
  split; [|split; [|split]].
  - intros s data Hs Hp.
    unfold readDB, read_local. now rewrite Hs, Hp.
  - intros b data Hloc Hup Hb Hp.
    apply read_local_none in Hloc.
    assert (Hf : fetch_cloud io st = Some data).
    { unfold fetch_cloud. now rewrite Hup, Hb. }
    unfold readDB. rewrite Hloc, Hf. simpl.
    repeat split.
    + now destruct (cache_write io).
    + now intros ->.
    + now intros ->.
  - intros Hloc Hrem.
    apply read_local_none in Hloc. apply fetch_cloud_none in Hrem.
    unfold readDB. now rewrite Hloc, Hrem.
  - apply readDB_value.
Qed.

Hypothesis JSON_roundtrip :
  forall data, JSON_parse (JSON_stringify data) = Some data.

Ltac use_parses :=
  repeat (first
            [ rewrite JSON_roundtrip
            | match goal with
              | H : JSON_parse _ = _ |- _ => rewrite H
              end ];
          simpl).

Ltac io_cases loc cld up1 cw1 tw uw :=
  destruct loc as [s|]; [destruct (JSON_parse s) eqn:?|];
  destruct up1; destruct cld as [b|];
  try destruct (JSON_parse b) eqn:?;
  destruct cw1, tw, uw; simpl; use_parses; try reflexivity.

(** A second load after a save sees what the first load returned, as long
    as the raw object is reachable at both loads or at neither. *)
Lemma reload_after_save rio1 rio2 wio (st : Store bytes) :
  fetch_up rio2 = fetch_up rio1 ->
  fst (readDB rio2 (writeDB wio (fst (readDB rio1 st)) (snd (readDB rio1 st))))
  = fst (readDB rio1 st).
Proof.
  intros Hnet.
  destruct st as [loc cld], rio1 as [up1 cw1], rio2 as [up2 cw2],
    wio as [fw tw uw].
  simpl in Hnet. subst up2.
  unfold readDB, writeDB, read_local,
    fetch_cloud; simpl.
  destruct fw; io_cases loc cld up1 cw1 tw uw.
Qed.

(** Once the local file took the save, the next load reads it back and
    writes nothing. *)
Lemma reload_after_local_save rio wio data (st : Store bytes) :
  file_write wio = true ->
  readDB rio (writeDB wio data st) = (data, writeDB wio data st).
Proof.
  intros Hfw. destruct st as [loc cld], wio as [fw tw uw].
  simpl in Hfw. subst fw.
  unfold readDB, writeDB, read_local; simpl.
  destruct (tw && uw); simpl; now rewrite JSON_roundtrip.
Qed.

Lemma writeDB_local wio data (st : Store bytes) :
  local_file (writeDB wio data st)
  = if file_write wio then Some (JSON_stringify data) else local_file st.
Proof.
  unfold writeDB.
  destruct (file_write wio), (tmp_write wio && upload wio); reflexivity.
Qed.

Lemma writeDB_cloud wio data (st : Store bytes) :
  cloud_raw (writeDB wio data st)
  = if tmp_write wio && upload wio
    then Some (JSON_stringify data) else cloud_raw st.
Proof.
  unfold writeDB.
  destruct (file_write wio), (tmp_write wio && upload wio); reflexivity.
Qed.

Lemma readDB_cloud rio (st : Store bytes) :
  cloud_raw (snd (readDB rio st)) = cloud_raw st.
Proof.
  unfold readDB.
  destruct (read_local st); [reflexivity|].
  destruct (fetch_cloud rio st); [|reflexivity].
  destruct (cache_write rio); reflexivity.
Qed.

(** C8. Load, save, load, save: the second save serialises the same bytes
    as the first, whatever the stores held and whichever writes failed
    ([JSON.parse] undoing [JSON.stringify], and the raw object being
    reachable at both loads or at neither).  A copy that took the first
    save holds those bytes after the first save and after the second. *)
Theorem save_after_load_idempotent
  (rio1 rio2 : ReadIO) (wio1 wio2 : WriteIO) (st : Store bytes) :
  fetch_up rio2 = fetch_up rio1 ->
  let run := load_save_twice rio1 wio1 rio2 wio2 st in
  let json1 := fst (fst run) in
  let st2 := snd (fst run) in
  let json2 := fst (snd run) in
  let st4 := snd (snd run) in
  json2 = json1 /\
  (file_write wio1 = true ->
   local_file st2 = Some json1 /\ local_file st4 = Some json1) /\
  (tmp_write wio1 && upload wio1 = true ->
   cloud_raw st2 = Some json1 /\ cloud_raw st4 = Some json1) /\
  (file_write wio1 = true -> tmp_write wio1 && upload wio1 = true ->
   st4 = st2).
Proof.
  intros Hnet. unfold load_save_twice.
  pose proof (reload_after_save rio1 rio2 wio1 st Hnet) as Hval.
  destruct (readDB rio1 st) as [d1 st1] eqn:E1. simpl in Hval.
  destruct (readDB rio2 (writeDB wio1 d1 st1)) as [d2 st3] eqn:E2.
  simpl in Hval. subst d2. simpl.
  split; [reflexivity|]. split; [|split].
  - intros Hfw.
    rewrite (reload_after_local_save rio2 wio1 d1 st1 Hfw) in E2.
    injection E2 as <-.
    rewrite !writeDB_local, Hfw.
    split; [reflexivity | now destruct (file_write wio2)].
  - intros Hup.
    assert (Hc3 : cloud_raw st3 = cloud_raw (writeDB wio1 d1 st1)).
    { rewrite <- (readDB_cloud rio2 (writeDB wio1 d1 st1)).
      now rewrite E2. }
    rewrite !writeDB_cloud, Hc3, writeDB_cloud, Hup.
    split; [reflexivity | now destruct (tmp_write wio2 && upload wio2)].
  - intros Hfw Hup.
    rewrite (reload_after_local_save rio2 wio1 d1 st1 Hfw) in E2.
    injection E2 as <-.
    destruct st1 as [loc cld], wio1 as [fw1 tw1 uw1], wio2 as [fw2 tw2 uw2].
    simpl in Hfw, Hup. subst fw1. unfold writeDB. simpl.
    rewrite Hup. simpl. destruct fw2, (tw2 && uw2); reflexivity.
Qed.

End PersistenceFacts.

(** ** POST /api/admin/photos/register *)

Lemma split_pop_no_slash s : has_slash (split_pop s) = false.
Proof.
  induction s as [|c rest IH].
  - reflexivity.
  - cbn [split_pop].
    destruct (has_slash (String c rest)) eqn:E; [exact IH | exact E].
Qed.


Lemma NoDup_snoc (l : list string) (x : string) :
  NoDup l -> ~ In x l -> NoDup (l ++ [x]).
Proof.
  intros Hl Hx. apply NoDup_app; [exact Hl | repeat constructor; auto |].
  intros a Ha [<- | []]. contradiction.
Qed.

Lemma iota_snoc n : iota (S n) = iota n ++ [Z.of_nat n].
Proof.
  unfold iota. rewrite seq_S, map_app. reflexivity.
Qed.

Section RegisterFacts.

Variable path_basename : string -> string -> string.
Variable path_extname : string -> string.

Local Abbreviation register := (register path_basename path_extname).
Local Abbreviation register_all := (register_all path_basename path_extname).

Lemma register_done uuid now lookup body db photo db' :
  register uuid now lookup body db = Done photo db' ->
  db' = db ++ [photo] /\
  id photo = uuid /\
  order photo = Z.of_nat (List.length db).
Proof.
  unfold register.
  destruct (nonempty (reg_cloudinaryId body)) as [cid|]; [|discriminate].
  destruct (final_dims lookup cid body) as [finalW finalH].
  intros H. injection H as <- <-. auto.
Qed.

Lemma register_keeps_indexed uuid now lookup body db photo db' :
  register uuid now lookup body db = Done photo db' ->
  indexed_orders db -> indexed_orders db'.
Proof.
  intros H Hidx. apply register_done in H. destruct H as (-> & _ & Ho).
  unfold indexed_orders in *.
  rewrite map_app, length_app, Nat.add_1_r, iota_snoc, Hidx. simpl.
  now rewrite Ho.
Qed.

Lemma register_keeps_dense uuid now lookup body db photo db' :
  register uuid now lookup body db = Done photo db' ->
  dense_orders db -> dense_orders db'.
Proof.
  intros H Hd. apply register_done in H. destruct H as (-> & _ & Ho).
  unfold dense_orders in *.
  rewrite map_app, length_app, Nat.add_1_r, iota_snoc. simpl.
  rewrite Ho. now apply Permutation_app_tail.
Qed.

Lemma register_all_indexed calls db :
  indexed_orders db -> indexed_orders (register_all calls db).
Proof.
  revert db. induction calls as [|c calls IH]; simpl; intros db Hidx.
  - exact Hidx.
  - destruct (register (call_uuid c) (call_now c) (call_lookup c)
                (call_body c) db) as [photo db'|status error] eqn:E.
    + apply IH. eapply register_keeps_indexed; eauto.
    + now apply IH.
Qed.


End RegisterFacts.

(** ** Order values after a mutation *)

Lemma last_index_nodup x ids i k :
  NoDup ids -> nth_error ids k = Some x ->
  last_index x ids i = Some (i + k)%nat.
Proof.
  revert i k. induction ids as [|y ids IH]; intros i k Hnd Hk.
  - destruct k; discriminate.
  - inversion Hnd as [|? ? Hy Hnd']; subst. simpl.
    destruct k as [|k]; simpl in Hk.
    + injection Hk as ->.
      apply (last_index_none x ids (S i)) in Hy. rewrite Hy.
      rewrite String.eqb_refl. f_equal. lia.
    + rewrite (IH (S i) k Hnd' Hk). f_equal. lia.
Qed.

Lemma position_ids ids :
  NoDup ids -> map (position ids) ids = iota (List.length ids).
Proof.
  intros Hnd. apply nth_error_ext. intros n.
  unfold iota. rewrite !nth_error_map, nth_error_seq.
  destruct (nth_error ids n) as [x|] eqn:E; simpl.
  - assert (Hlt : (n < List.length ids)%nat).
    { apply nth_error_Some. congruence. }
    apply Nat.ltb_lt in Hlt. rewrite Hlt. simpl.
    unfold position. now rewrite (last_index_nodup x ids 0 n Hnd E).
  - apply nth_error_None in E. apply Nat.ltb_ge in E. now rewrite E.
Qed.

Lemma listed_iff ids x : listed ids x = true <-> In x ids.
Proof.
  unfold listed. rewrite existsb_exists. split.
  - intros (y & Hy & Heq). apply String.eqb_eq in Heq. now subst.
  - intros H. exists x. split; [exact H | apply String.eqb_refl].
Qed.

(** The [order] values of the published scope after a publish with a list
    are the positions in the list of the ids that some record has. *)
Lemma published_scope_orders ids db :
  map order
      (published_scope
         (map (fun p => mark_by mark_published ids 0 (set_published false p))
              db))
  = map (position ids) (filter (listed ids) (map id db)).
Proof.
  unfold published_scope. induction db as [|p db IH]; simpl.
  - reflexivity.
  - unfold mark_by at 1. simpl.
    destruct (last_index (id p) ids 0) as [j|] eqn:E; simpl.
    + assert (Hin : listed ids (id p) = true).
      { apply listed_iff.
        destruct (in_dec string_dec (id p) ids) as [H|H]; [exact H|].
        apply (last_index_none (id p) ids 0) in H. congruence. }
      rewrite Hin. simpl. rewrite IH. f_equal.
      unfold mark_by, position. simpl. now rewrite E.
    + assert (Hout : listed ids (id p) = false).
      { apply not_true_is_false. intros H. apply listed_iff in H.
        apply (last_index_none (id p) ids 0) in E. contradiction. }
      rewrite Hout. exact IH.
Qed.

Lemma listed_ids_perm ids (l : list string) :
  NoDup l -> NoDup ids -> incl ids l ->
  Permutation (filter (listed ids) l) ids.
Proof.
  intros Hl Hids Hincl. apply NoDup_Permutation.
  - now apply NoDup_filter.
  - exact Hids.
  - intros x. rewrite filter_In, listed_iff. split.
    + tauto.
    + intros H. split; [now apply Hincl | exact H].
Qed.

Lemma publish_list_dense ids db n db' :
  NoDup (map id db) -> NoDup ids -> incl ids (map id db) ->
  publish (Some ids) db = Done n db' ->
  dense_orders (published_scope db') /\ n = List.length ids.
Proof.
  intros Hnd Hids Hincl H. unfold publish in H.
  rewrite publish_list_map in H by assumption.
  injection H as <- <-.
  pose proof (listed_ids_perm ids (map id db) Hnd Hids Hincl) as Hperm.
  pose proof (published_scope_orders ids db) as Ho.
  assert (Hlen : List.length
                   (published_scope
                      (map (fun p => mark_by mark_published ids 0
                                       (set_published false p)) db))
                 = List.length ids).
  { rewrite <- (length_map order), Ho, length_map.
    now apply Permutation_length. }
  split; [|exact Hlen].
  unfold dense_orders. rewrite Hlen, Ho, <- (position_ids ids Hids).
  now apply Permutation_map.
Qed.

Lemma publish_all_indexed db n db' :
  publish None db = Done n db' ->
  published_scope db' = db' /\ indexed_orders db'.
Proof.
  unfold publish. intros H. injection H as _ <-. split.
  - apply filter_published_all, forEach_idx_published.
  - apply forEach_idx_indexed. reflexivity.
Qed.

Lemma delete_photo_indexed destroy i db db' :
  delete_photo destroy i db = Done tt db' -> indexed_orders db'.
Proof.
  unfold delete_photo. destruct (find (has_id i) db); [|discriminate].
  intros H. injection H as <-. apply renumber_indexed.
Qed.

(** C1 (as the code has it).  Deleting renumbers the whole collection to
    0..n-1 in array order.  Publishing without a list numbers the whole
    collection, all of it published, 0..n-1 in array order.  Publishing
    with a list of distinct ids that all belong to the collection (its ids
    being unique) leaves the published records with the orders 0..k-1,
    k the length of the list.  Registering appends a record whose order is
    the previous size, so it keeps the orders dense when they were, and
    every sequence of register requests on the empty database yields the
    orders 0..n-1 in array order. *)
Theorem order_renumbering :
  (forall destroy i db db',
      delete_photo destroy i db = Done tt db' ->
      indexed_orders db' /\ dense_orders db') /\
  (forall db n db',
      publish None db = Done n db' ->
      published_scope db' = db' /\
      indexed_orders db' /\
      dense_orders (published_scope db')) /\
  (forall ids db n db',
      NoDup (map id db) -> NoDup ids -> incl ids (map id db) ->
      publish (Some ids) db = Done n db' ->
      dense_orders (published_scope db') /\ n = List.length ids) /\
  (forall path_basename path_extname uuid now lookup body db photo db',
      register path_basename path_extname uuid now lookup body db
      = Done photo db' ->
      (dense_orders db -> dense_orders db') /\
      (indexed_orders db -> indexed_orders db')) /\
  (forall path_basename path_extname calls,
      indexed_orders (register_all path_basename path_extname calls []) /\
      dense_orders (register_all path_basename path_extname calls [])).
Proof.
  split; [|split; [|split; [|split]]].
  - intros destroy i db db' H. apply delete_photo_indexed in H.
    split; [exact H | now apply indexed_dense].
  - intros db n db' H. apply publish_all_indexed in H.
    destruct H as (Hall & Hidx). rewrite Hall.
    repeat split; [exact Hidx | now apply indexed_dense].
  - intros ids db n db'. apply publish_list_dense.
  - intros pb pe uuid now lookup body db photo db' H. split.
    + eapply register_keeps_dense; eauto.
    + eapply register_keeps_indexed; eauto.
  - intros pb pe calls.
    assert (H : indexed_orders (register_all pb pe calls [])).
    { apply register_all_indexed. reflexivity. }
    split; [exact H | now apply indexed_dense].
Qed.

Lemma order_renumbering_witness :
  (indexed_orders (renumber [photo_a; photo_c]) /\
   dense_orders (renumber [photo_a; photo_c])) /\
  (dense_orders
     (published_scope
        [set_order 1 (set_published true photo_a); photo_b;
         set_order 0 (set_published true photo_c)]) /\
   2%nat = List.length ["c"; "a"]).
Proof.
  destruct order_renumbering as (Hdel & _ & Hlist & _).
  split.
  - apply (Hdel (fun _ => true) "b" demo_db). reflexivity.
  - apply (Hlist ["c"; "a"] demo_db).
    + repeat constructor; simpl; intuition discriminate.
    + repeat constructor; simpl; intuition discriminate.
    + intros x [<- | [<- | []]]; simpl; auto.
    + reflexivity.
Defined.

Lemma two_db_reachable : reachable whole_basename no_extname two_db.
Proof.
  apply (reach_register whole_basename no_extname
           (call_uuid call_b) (call_now call_b) (call_lookup call_b)
           (call_body call_b)
           (register_all whole_basename no_extname [call_a] [])
           (nth 1 two_db photo_b)).
  - apply (reach_register whole_basename no_extname
             (call_uuid call_a) (call_now call_a) (call_lookup call_a)
             (call_body call_a) [] (nth 0 two_db photo_a)).
    + apply reach_empty.
    + simpl. tauto.
    + reflexivity.
  - simpl. intros [H | []]. discriminate.
  - reflexivity.
Qed.

Lemma gap_db_reachable : reachable whole_basename no_extname gap_db.
Proof.
  apply (reach_publish whole_basename no_extname (Some ["b"]) two_db 1%nat).
  - apply two_db_reachable.
  - reflexivity.
Qed.

(** C1, as stated, fails.  After registering a and b and publishing only b,
    registering c leaves the orders 0, 0, 2 on the collection.  And
    publishing the list ["zz", "a"], whose first id no record has, leaves
    the only published record with order 1. *)
Lemma dense_orders_counterexample :
  (reachable whole_basename no_extname gap_db /\
   exists photo db',
     register whole_basename no_extname (call_uuid call_c) (call_now call_c)
              (call_lookup call_c) (call_body call_c) gap_db
     = Done photo db' /\
     map order db' = [0; 0; 2] /\
     ~ dense_orders db') /\
  (reachable whole_basename no_extname two_db /\
   exists n db',
     publish (Some ["zz"; "a"]) two_db = Done n db' /\
     map order (published_scope db') = [1] /\
     ~ dense_orders (published_scope db')).
Proof.
  split.
  - split; [apply gap_db_reachable|].
    eexists. eexists. split; [reflexivity|]. split; [reflexivity|].
    unfold dense_orders. intros H.
    apply Permutation_sym in H.
    apply (Permutation_in 1) in H; [|simpl; auto].
    simpl in H. intuition discriminate.
  - split; [apply two_db_reachable|].
    eexists. eexists. split; [reflexivity|]. split; [reflexivity|].
    unfold dense_orders. intros H.
    apply Permutation_sym in H.
    apply (Permutation_in 0) in H; [|simpl; auto].
    simpl in H. intuition discriminate.
Qed.

(** ** Unique ids *)

(** Every collection the routes can reach has unique ids. *)
Lemma reachable_unique_ids path_basename path_extname db :
  reachable path_basename path_extname db -> NoDup (map id db).
Proof.
  induction 1 as
    [ | uuid now lookup body db photo db' _ IH Hfresh Hreg
      | i body db db' _ IH Hput
      | destroy i db db' _ IH Hdel
      | ids db n db' _ IH Hpub
      | ids db db' _ IH Hre
      | db db' _ IH Hclear ].
  - constructor.
  - apply register_done in Hreg. destruct Hreg as (-> & Hid & _).
    rewrite map_app. simpl. rewrite Hid. now apply NoDup_snoc.
  - unfold put_photo in Hput.
    destruct (find (has_id i) db); [|discriminate].
    injection Hput as <-.
    rewrite update_found_ids; [exact IH | apply apply_patch_id].
  - unfold delete_photo in Hdel.
    destruct (find (has_id i) db); [|discriminate].
    injection Hdel as <-. unfold renumber.
    rewrite forEach_idx_ids by reflexivity.
    rewrite filter_not_id_ids. now apply NoDup_filter.
  - unfold publish in Hpub. injection Hpub as _ <-.
    destruct ids as [l|].
    + rewrite forEach_ids_ids by reflexivity. now rewrite map_map.
    + rewrite forEach_idx_ids by reflexivity. now rewrite map_map.
  - unfold reorder in Hre. destruct ids as [l|]; [|discriminate].
    injection Hre as <-.
    eapply Permutation_NoDup.
    + apply Permutation_sym, Permutation_map, sort_by_order_perm.
    + rewrite forEach_ids_ids by reflexivity. exact IH.
  - unfold clear_photos in Hclear. injection Hclear as <-. constructor.
Qed.

(** ** Instances on the sample data *)

Lemma readDB_never_fails_witness :
  let io := mkReadIO true true in
  let st := mkStore (Some None) (Some (Some demo_db)) in
  fst (readDB doc doc_stringify doc_parse io st) = demo_db /\
  cloud_raw (snd (readDB doc doc_stringify doc_parse io st)) = cloud_raw st /\
  (cache_write io = true ->
   local_file (snd (readDB doc doc_stringify doc_parse io st))
   = Some (doc_stringify demo_db)) /\
  (cache_write io = false ->
   snd (readDB doc doc_stringify doc_parse io st) = st).
Proof.
  intros io st.
  destruct (readDB_never_fails doc doc_stringify doc_parse io st)
    as (_ & Hfetch & _).
  apply (Hfetch (Some demo_db) demo_db).
  - right. exists None. split; reflexivity.
  - reflexivity.
  - reflexivity.
  - reflexivity.
Defined.

Lemma save_after_load_idempotent_witness :
  let run :=
    load_save_twice doc doc_stringify doc_parse
      (mkReadIO true false) (mkWriteIO true true true)
      (mkReadIO true true) (mkWriteIO false true false)
      (mkStore (Some None) (Some (Some demo_db))) in
  fst (snd run) = fst (fst run) /\
  (true = true ->
   local_file (snd (fst run)) = Some (fst (fst run)) /\
   local_file (snd (snd run)) = Some (fst (fst run))) /\
  (true && true = true ->
   cloud_raw (snd (fst run)) = Some (fst (fst run)) /\
   cloud_raw (snd (snd run)) = Some (fst (fst run))) /\
  (true = true -> true && true = true -> snd (snd run) = snd (fst run)).
Proof.
  apply (save_after_load_idempotent doc doc_stringify doc_parse
           (fun data => eq_refl)
           (mkReadIO true false) (mkReadIO true true)
           (mkWriteIO true true true) (mkWriteIO false true false)
           (mkStore (Some None) (Some (Some demo_db)))).
  reflexivity.
Defined.



(** ** Routes over the stores *)

Section ServedRoutes.

Variable bytes : Type.
Variable JSON_stringify : list Photo -> bytes.
Variable JSON_parse : bytes -> option (list Photo).

Hypothesis JSON_roundtrip :
  forall data, JSON_parse (JSON_stringify data) = Some data.

Local Abbreviation serve := (serve bytes JSON_stringify JSON_parse).

(** A route that answers with an error writes nothing back. *)
Lemma serve_fail_writes_nothing (A : Type) (route : list Photo -> Outcome A)
  rio wio (st : Store bytes) status error st' :
  serve route rio wio st = (Fail status error, st') ->
  st' = snd (readDB bytes JSON_stringify JSON_parse rio st).
Proof.
  unfold serve.
  destruct (readDB bytes JSON_stringify JSON_parse rio st) as [db st1].
  destruct (route db); intros H; [discriminate|].
  now injection H as _ _ <-.
Qed.

(** Once the local file took the write of a served delete, serving the same
    delete again answers 404. *)
Lemma serve_delete_twice destroy destroy' i rio1 wio1 rio2 wio2
  (st st' : Store bytes) db' :
  file_write wio1 = true ->
  serve (delete_photo destroy i) rio1 wio1 st = (Done tt db', st') ->
  fst (serve (delete_photo destroy' i) rio2 wio2 st')
  = Fail 404 "Photo introuvable".
Proof.
  intros Hfw. unfold serve.
  destruct (readDB bytes JSON_stringify JSON_parse rio1 st) as [db st1].
  destruct (delete_photo destroy i db) as [[] db1|] eqn:Edel; [|discriminate].
  intros H. injection H as <- <-.
  rewrite (reload_after_local_save bytes JSON_stringify JSON_parse
             JSON_roundtrip rio2 wio1 db1 st1 Hfw).
  assert (Habs : ~ In i (map id db1)).
  { unfold delete_photo in Edel.
    destruct (find (has_id i) db); [|discriminate].
    injection Edel as <-. unfold renumber.
    rewrite forEach_idx_ids by reflexivity. apply filter_not_id_absent. }
  apply (delete_photo_fail destroy' i db1) in Habs. now rewrite Habs.
Qed.

End ServedRoutes.

(** * Further properties of the routes *)

(** ** The sort of the reorder route *)

Lemma insert_by_order_front p l :
  HdRel order_le p l -> insert_by_order p l = p :: l.
Proof.
  destruct l as [|q l]; simpl; [reflexivity|].
  intros H. inversion H as [|? ? Hle]; subst. unfold order_le in Hle.
  destruct (Z.leb_spec (order p) (order q)); [reflexivity | lia].
Qed.

Lemma sort_by_order_fix l : Sorted order_le l -> sort_by_order l = l.
Proof.
  induction 1 as [|p l Hs IH Hhd]; simpl.
  - reflexivity.
  - fold (sort_by_order l). rewrite IH. now apply insert_by_order_front.
Qed.

(** Sorting an array that is already in non-decreasing order leaves it as
    it is, and sorting twice is sorting once. *)
Theorem sort_by_order_idempotent (db : list Photo) :
  (Sorted order_le db -> sort_by_order db = db) /\
  sort_by_order (sort_by_order db) = sort_by_order db.
Proof.
  split.
  - apply sort_by_order_fix.
  - apply sort_by_order_fix, sort_by_order_sorted.
Qed.

Lemma sort_by_order_idempotent_witness :
  Sorted order_le demo_db /\ sort_by_order demo_db = demo_db.
Proof.
  assert (H : Sorted order_le demo_db).
  { repeat constructor; unfold order_le; simpl; lia. }
  split; [exact H|].
  exact (proj1 (sort_by_order_idempotent demo_db) H).
Defined.

#[local] Instance order_le_trans : Transitive order_le.
Proof. intros a b c. unfold order_le. lia. Qed.

Lemma sorted_orders l :
  Sorted order_le l -> StronglySorted Z.le (map order l).
Proof.
  intros H. apply Sorted_StronglySorted in H; [|apply order_le_trans].
  induction H as [|p l Hs IH Hall]; simpl; constructor.
  - exact IH.
  - rewrite Forall_forall in *. intros z Hz.
    apply in_map_iff in Hz. destruct Hz as (q & <- & Hq). now apply Hall.
Qed.

Lemma seq_sorted i n : StronglySorted Z.le (map Z.of_nat (seq i n)).
Proof.
  revert i. induction n as [|n IH]; intros i; simpl; constructor.
  - apply IH.
  - rewrite Forall_forall. intros z Hz.
    apply in_map_iff in Hz. destruct Hz as (k & <- & Hk).
    apply in_seq in Hk. lia.
Qed.

(** Two sorted lists of integers with the same elements are equal. *)
Lemma sorted_perm_eq (l l' : list Z) :
  StronglySorted Z.le l -> StronglySorted Z.le l' -> Permutation l l' ->
  l = l'.
Proof.
  revert l'. induction l as [|a l IH]; intros l' Hs Hs' Hp.
  - apply Permutation_nil in Hp. now subst.
  - destruct l' as [|b l'].
    { apply Permutation_sym, Permutation_nil in Hp. discriminate. }
    inversion Hs as [|? ? Hsl Ha]; inversion Hs' as [|? ? Hsl' Hb]; subst.
    assert (Hab : a = b).
    { assert (H1 : In a (b :: l')).
      { eapply Permutation_in; [exact Hp | now left]. }
      assert (H2 : In b (a :: l)).
      { eapply Permutation_in; [apply Permutation_sym; exact Hp | now left]. }
      rewrite Forall_forall in Ha, Hb.
      destruct H1 as [H1|H1]; [now symmetry|].
      destruct H2 as [H2|H2]; [exact H2|].
      apply Hb in H1. apply Ha in H2. lia. }
    subst b. f_equal. apply IH; auto.
    eapply Permutation_cons_inv; eauto.
Qed.

(** ** Reordering *)

Lemma mark_by_id f ids i p :
  (forall j q, id (f j q) = id q) -> id (mark_by f ids i p) = id p.
Proof.
  intros Hf. unfold mark_by. destruct (last_index (id p) ids i); auto.
Qed.

Lemma mark_by_twice f ids i p :
  (forall j q, id (f j q) = id q) ->
  (forall j k q, f j (f k q) = f j q) ->
  mark_by f ids i (mark_by f ids i p) = mark_by f ids i p.
Proof.
  intros Hid Hover. unfold mark_by at 1. rewrite mark_by_id by assumption.
  unfold mark_by. destruct (last_index (id p) ids i); auto.
Qed.

Lemma marked_order_position ids p :
  In (id p) ids ->
  order (mark_by mark_order ids 0 p) = position ids (id p).
Proof.
  intros Hin. unfold mark_by, position.
  destruct (last_index (id p) ids 0) eqn:E; [reflexivity|].
  apply last_index_none in E. contradiction.
Qed.

Lemma position_nth ids x k :
  In x ids -> position ids x = Z.of_nat k -> nth_error ids k = Some x.
Proof.
  intros Hin. unfold position.
  destruct (last_index x ids 0) as [j|] eqn:E.
  - intros H. apply Nat2Z.inj in H. subst j.
    apply last_index_some in E. destruct E as (_ & Hnth & _).
    now rewrite Nat.sub_0_r in Hnth.
  - apply last_index_none in E. contradiction.
Qed.

Lemma reorder_done ids db db' :
  NoDup (map id db) ->
  reorder (Some ids) db = Done tt db' ->
  db' = sort_by_order (map (mark_by mark_order ids 0) db).
Proof.
  intros Hnd H. unfold reorder in H. injection H as <-.
  rewrite forEach_ids_map;
    [reflexivity | reflexivity | apply mark_order_over | assumption].
Qed.

(** Reordering with a list that names every record once (what the admin
    page sends after a drag and drop) arranges the array in the order of
    the list, with [order] = array index, and changes no other field. *)
Theorem reorder_full_list (ids : list string) (db : list Photo) :
  NoDup (map id db) -> Permutation ids (map id db) ->
  exists db',
    reorder (Some ids) db = Done tt db' /\
    map id db' = ids /\
    indexed_orders db' /\
    Permutation (map (set_order 0) db') (map (set_order 0) db).
Proof.
  intros Hnd Hperm.
  set (marked := map (mark_by mark_order ids 0) db).
  exists (sort_by_order marked).
  assert (Hids : NoDup ids).
  { eapply Permutation_NoDup; [apply Permutation_sym; exact Hperm | exact Hnd]. }
  assert (Hin : forall p, In p db -> In (id p) ids).
  { intros p Hp. eapply Permutation_in; [apply Permutation_sym; exact Hperm|].
    now apply in_map. }
  assert (Hsorted_perm : Permutation (sort_by_order marked) marked)
    by apply sort_by_order_perm.
  assert (Hlen : List.length (sort_by_order marked) = List.length ids).
  { rewrite (Permutation_length Hsorted_perm). unfold marked.
    rewrite length_map, <- (length_map id db).
    symmetry. now apply Permutation_length. }
  assert (Horders : map order (sort_by_order marked) = iota (List.length ids)).
  { apply sorted_perm_eq.
    - apply sorted_orders, sort_by_order_sorted.
    - apply seq_sorted.
    - eapply Permutation_trans; [apply Permutation_map; exact Hsorted_perm|].
      unfold marked. rewrite map_map.
      rewrite (map_ext_in _ (fun p => position ids (id p)))
        by (intros p Hp; apply marked_order_position; auto).
      rewrite <- (map_map id (position ids)), <- (position_ids ids Hids).
      apply Permutation_map, Permutation_sym, Hperm. }
  split; [|split; [|split]].
  - unfold reorder. f_equal. f_equal.
    apply forEach_ids_map;
      [reflexivity | apply mark_order_over | assumption].
  - apply nth_error_ext. intros k. rewrite nth_error_map.
    destruct (nth_error (sort_by_order marked) k) as [p'|] eqn:E; simpl.
    + assert (Hk : order p' = Z.of_nat k).
      { assert (H1 : nth_error (map order (sort_by_order marked)) k
                     = Some (order p')) by (rewrite nth_error_map, E; auto).
        rewrite Horders in H1. unfold iota in H1.
        rewrite nth_error_map, nth_error_seq in H1.
        destruct (k <? List.length ids)%nat; simpl in H1; congruence. }
      assert (Hp' : In p' marked).
      { eapply Permutation_in; [exact Hsorted_perm|].
        eapply nth_error_In; eauto. }
      unfold marked in Hp'. apply in_map_iff in Hp'.
      destruct Hp' as (p & <- & Hp).
      rewrite marked_order_position in Hk by auto.
      rewrite mark_by_id by reflexivity.
      symmetry. apply position_nth; auto.
    + apply nth_error_None in E. rewrite Hlen in E.
      symmetry. now apply nth_error_None.
  - unfold indexed_orders. now rewrite Hlen.
  - eapply Permutation_trans; [apply Permutation_map; exact Hsorted_perm|].
    unfold marked. rewrite map_map.
    rewrite (map_ext _ (set_order 0)); [apply Permutation_refl|].
    intros p. unfold mark_by.
    destruct (last_index (id p) ids 0); reflexivity.
Qed.

Lemma reorder_full_list_witness :
  exists db',
    reorder (Some ["c"; "a"; "b"]) demo_db = Done tt db' /\
    map id db' = ["c"; "a"; "b"] /\
    indexed_orders db' /\
    Permutation (map (set_order 0) db') (map (set_order 0) demo_db).
Proof.
  apply (reorder_full_list ["c"; "a"; "b"] demo_db).
  - repeat constructor; simpl; intuition discriminate.
  - simpl. apply Permutation_sym.
    apply (Permutation_cons_app ["c"] ["b"] "a").
    apply (Permutation_cons_app ["c"] [] "b"). apply Permutation_refl.
Defined.

(** Sending the same reorder again changes nothing: the second request
    writes the array the first one wrote. *)
Theorem reorder_idempotent (ids : list string) (db db' : list Photo) :
  NoDup (map id db) ->
  reorder (Some ids) db = Done tt db' ->
  reorder (Some ids) db' = Done tt db'.
Proof.
  intros Hnd H. apply reorder_done in H; [|assumption].
  assert (Hperm : Permutation db' (map (mark_by mark_order ids 0) db)).
  { subst db'. apply sort_by_order_perm. }
  assert (Hnd' : NoDup (map id db')).
  { eapply Permutation_NoDup.
    - apply Permutation_sym, Permutation_map, Hperm.
    - rewrite map_map.
      rewrite (map_ext _ id); [exact Hnd|].
      intros p. now apply mark_by_id. }
  unfold reorder. f_equal.
  rewrite forEach_ids_map;
    [| reflexivity | apply mark_order_over | assumption].
  rewrite (map_ext_in _ (fun p => p)).
  - rewrite map_id. apply sort_by_order_fix.
    subst db'. apply sort_by_order_sorted.
  - intros p' Hp'.
    apply (Permutation_in _ Hperm) in Hp'. apply in_map_iff in Hp'.
    destruct Hp' as (p & <- & _).
    apply mark_by_twice; [reflexivity | apply mark_order_over].
Qed.

Lemma reorder_idempotent_witness :
  reorder (Some ["c"; "zz"; "a"])
          [set_order 1 photo_c; set_order 2 photo_a; set_order 1 photo_b]
  = Done tt [set_order 0 photo_c; set_order 1 photo_b; set_order 2 photo_a] /\
  reorder (Some ["c"; "zz"; "a"])
          [set_order 0 photo_c; set_order 1 photo_b; set_order 2 photo_a]
  = Done tt [set_order 0 photo_c; set_order 1 photo_b; set_order 2 photo_a].
Proof.
  split; [reflexivity|].
  apply (reorder_idempotent ["c"; "zz"; "a"]
           [set_order 1 photo_c; set_order 2 photo_a; set_order 1 photo_b]).
  - repeat constructor; simpl; intuition discriminate.
  - reflexivity.
Defined.

(** ** Publishing again *)

Lemma forEach_idx_again f (u : Photo -> Photo) i l :
  (forall k p, f k (u (f k (u p))) = f k (u p)) ->
  forEach_idx f i (map u (forEach_idx f i (map u l)))
  = forEach_idx f i (map u l).
Proof.
  intros Hf. revert i. induction l as [|p l IH]; simpl; intros i.
  - reflexivity.
  - now rewrite Hf, IH.
Qed.

Lemma publish_mark_twice ids p :
  mark_by mark_published ids 0
    (set_published false
       (mark_by mark_published ids 0 (set_published false p)))
  = mark_by mark_published ids 0 (set_published false p).
Proof.
  unfold mark_by. simpl.
  destruct (last_index (id p) ids 0) eqn:E; simpl; rewrite E; reflexivity.
Qed.

(** Sending the same publish request again changes nothing: same array
    written, same count answered. *)
Theorem publish_idempotent (ids : option (list string)) (db db' : list Photo)
  (n : nat) :
  NoDup (map id db) ->
  publish ids db = Done n db' ->
  publish ids db' = Done n db'.
Proof.
  intros Hnd H. unfold publish in *. destruct ids as [l|].
  - rewrite publish_list_map in H by assumption.
    injection H as Hn Hdb.
    assert (Hnd' : NoDup (map id db')).
    { subst db'. rewrite map_map.
      rewrite (map_ext _ id); [exact Hnd|].
      intros p. unfold mark_by. simpl.
      destruct (last_index (id p) l 0); reflexivity. }
    rewrite publish_list_map by assumption.
    assert (Hsame : map (fun p => mark_by mark_published l 0
                                    (set_published false p)) db' = db').
    { subst db'. rewrite map_map. apply map_ext. intros p.
      apply publish_mark_twice. }
    rewrite Hsame. subst db'. now rewrite Hn.
  - injection H as Hn Hdb.
    assert (Hsame : forEach_idx mark_published 0
                      (map (set_published false) db') = db').
    { subst db'. apply forEach_idx_again. reflexivity. }
    rewrite Hsame. subst db'. now rewrite Hn.
Qed.

Lemma publish_idempotent_witness :
  publish (Some ["c"; "a"; "c"]) demo_db
  = Done 2%nat [set_order 1 (set_published true photo_a); photo_b;
                set_order 2 (set_published true photo_c)] /\
  publish (Some ["c"; "a"; "c"])
          [set_order 1 (set_published true photo_a); photo_b;
           set_order 2 (set_published true photo_c)]
  = Done 2%nat [set_order 1 (set_published true photo_a); photo_b;
                set_order 2 (set_published true photo_c)].
Proof.
  split; [reflexivity|].
  apply (publish_idempotent (Some ["c"; "a"; "c"]) demo_db).
  - repeat constructor; simpl; intuition discriminate.
  - reflexivity.
Defined.

(** ** Deleting *)

Lemma renumber_fix_from i db :
  map order db = map Z.of_nat (seq i (List.length db)) ->
  forEach_idx (fun k p => set_order (Z.of_nat k) p) i db = db.
Proof.
  revert i. induction db as [|p db IH]; simpl; intros i H.
  - reflexivity.
  - injection H as Hp Hrest. rewrite (IH (S i) Hrest). f_equal.
    destruct p as [pid pcid pname pw ph pratio porient porder ppub pcreated].
    simpl in Hp. subst porder. reflexivity.
Qed.

Lemma renumber_fix db : indexed_orders db -> renumber db = db.
Proof. apply renumber_fix_from. Qed.

Lemma renumber_filter_from (f : Photo -> bool) a b l :
  (forall k p, f (set_order k p) = f p) ->
  forEach_idx (fun k p => set_order (Z.of_nat k) p) a
    (filter f (forEach_idx (fun k p => set_order (Z.of_nat k) p) b l))
  = forEach_idx (fun k p => set_order (Z.of_nat k) p) a (filter f l).
Proof.
  intros Hf. revert a b. induction l as [|p l IH]; simpl; intros a b.
  - reflexivity.
  - rewrite Hf. destruct (f p); simpl.
    + now rewrite IH.
    + apply IH.
Qed.

Lemma filter_swap {A : Type} (f g : A -> bool) l :
  filter f (filter g l) = filter g (filter f l).
Proof.
  induction l as [|x l IH]; simpl.
  - reflexivity.
  - destruct (g x) eqn:Eg, (f x) eqn:Ef; simpl;
      rewrite ?Eg, ?Ef, IH; reflexivity.
Qed.

Lemma delete_photo_present destroy i db db' :
  delete_photo destroy i db = Done tt db' ->
  In i (map id db) /\
  db' = renumber (filter (fun p => negb (has_id i p)) db).
Proof.
  intros H.
  destruct (in_dec string_dec i (map id db)) as [Hin|Hout].
  - split; [exact Hin|].
    rewrite (delete_photo_done destroy i db Hin) in H. now injection H.
  - apply (delete_photo_fail destroy i db) in Hout. congruence.
Qed.

Lemma deleted_ids i db :
  map id (renumber (filter (fun p => negb (has_id i p)) db))
  = filter (fun x => negb (String.eqb x i)) (map id db).
Proof.
  unfold renumber. rewrite forEach_idx_ids by reflexivity.
  apply filter_not_id_ids.
Qed.

(** Two deletes of different records give the same collection in either
    order. *)
Theorem delete_photo_commute (d1 d2 : string -> bool) (i j : string)
  (db dbi dbj : list Photo) :
  i <> j ->
  delete_photo d1 i db = Done tt dbi ->
  delete_photo d2 j db = Done tt dbj ->
  exists final,
    delete_photo d2 j dbi = Done tt final /\
    delete_photo d1 i dbj = Done tt final.
Proof.
  intros Hij Hi Hj.
  apply delete_photo_present in Hi. destruct Hi as (Hini & ->).
  apply delete_photo_present in Hj. destruct Hj as (Hinj & ->).
  exists (renumber (filter (fun p => negb (has_id j p))
                      (filter (fun p => negb (has_id i p)) db))).
  split.
  - rewrite delete_photo_done.
    + unfold renumber. now rewrite renumber_filter_from by reflexivity.
    + rewrite deleted_ids. apply filter_In. split; [exact Hinj|].
      apply negb_true_iff, String.eqb_neq. congruence.
  - rewrite delete_photo_done.
    + unfold renumber. rewrite renumber_filter_from by reflexivity.
      now rewrite filter_swap.
    + rewrite deleted_ids. apply filter_In. split; [exact Hini|].
      apply negb_true_iff, String.eqb_neq. congruence.
Qed.

Lemma delete_photo_commute_witness :
  exists final,
    delete_photo (fun _ => true) "c" (renumber [photo_b; photo_c])
    = Done tt final /\
    delete_photo (fun _ => true) "a" (renumber [photo_a; photo_b])
    = Done tt final.
Proof.
  apply (delete_photo_commute (fun _ => true) (fun _ => true) "a" "c" demo_db).
  - discriminate.
  - reflexivity.
  - reflexivity.
Defined.

Lemma rename_delete_from i j f a l :
  i <> j ->
  (forall p, id (f p) = id p) ->
  (forall k p, f (set_order k p) = set_order k (f p)) ->
  forEach_idx (fun k p => set_order (Z.of_nat k) p) a
    (filter (fun p => negb (has_id i p)) (update_found j f l))
  = update_found j f
      (forEach_idx (fun k p => set_order (Z.of_nat k) p) a
         (filter (fun p => negb (has_id i p)) l)).
Proof.
  intros Hij Hid Hcomm. revert a. induction l as [|p l IH]; intros a.
  - reflexivity.
  - cbn [update_found]. destruct (has_id j p) eqn:Ej.
    + assert (Ei : has_id i p = false).
      { apply has_id_true in Ej. apply has_id_false. congruence. }
      cbn [filter]. unfold has_id at 1. rewrite Hid. fold (has_id i p).
      rewrite Ei. cbn [negb forEach_idx update_found].
      unfold has_id at 2. cbn [id set_order]. fold (has_id j p).
      rewrite Ej. now rewrite Hcomm.
    + cbn [filter]. destruct (has_id i p) eqn:Ei; cbn [negb].
      * apply IH.
      * cbn [forEach_idx update_found].
        unfold has_id at 2. cbn [id set_order]. fold (has_id j p).
        rewrite Ej. f_equal. apply IH.
Qed.

(** A rename (an update that carries no [order]) and a delete of another
    record give the same collection in either order. *)
Theorem rename_delete_commute (destroy : string -> bool) (i j : string)
  (body : PutBody) (db db1 db2 : list Photo) :
  i <> j ->
  body_order body = None ->
  put_photo j body db = Done tt db1 ->
  delete_photo destroy i db = Done tt db2 ->
  exists final,
    delete_photo destroy i db1 = Done tt final /\
    put_photo j body db2 = Done tt final.
Proof.
  intros Hij Hbody Hput Hdel.
  apply delete_photo_present in Hdel. destruct Hdel as (Hini & ->).
  assert (Hinj : In j (map id db)).
  { destruct (in_dec string_dec j (map id db)) as [H|H]; [exact H|].
    apply find_has_id_none in H. unfold put_photo in Hput.
    rewrite H in Hput. discriminate. }
  assert (Hdb1 : db1 = update_found j (apply_patch body) db).
  { unfold put_photo in Hput.
    destruct (find (has_id j) db); [now injection Hput | discriminate]. }
  subst db1.
  exists (renumber (filter (fun p => negb (has_id i p))
                      (update_found j (apply_patch body) db))).
  split.
  - apply delete_photo_done.
    rewrite update_found_ids; [exact Hini | apply apply_patch_id].
  - unfold put_photo.
    destruct (find (has_id j)
                (renumber (filter (fun p => negb (has_id i p)) db))) eqn:E.
    + f_equal. unfold renumber. symmetry. apply rename_delete_from.
      * exact Hij.
      * apply apply_patch_id.
      * intros k q. unfold apply_patch. rewrite Hbody.
        destruct (body_name body); reflexivity.
    + apply find_has_id_none in E. exfalso. apply E.
      rewrite deleted_ids. apply filter_In. split; [exact Hinj|].
      apply negb_true_iff, String.eqb_neq. congruence.
Qed.

Lemma rename_delete_commute_witness :
  exists final,
    delete_photo (fun _ => true) "a"
      [photo_a; photo_b; set_name "Jardin" photo_c] = Done tt final /\
    put_photo "c" (mkPutBody (Some "Jardin") None) (renumber [photo_b; photo_c])
    = Done tt final.
Proof.
  apply (rename_delete_commute (fun _ => true) "a" "c"
           (mkPutBody (Some "Jardin") None) demo_db).
  - discriminate.
  - reflexivity.
  - reflexivity.
  - reflexivity.
Defined.

(** ** The listings *)

Lemma published_scope_ids ids db :
  map id
      (published_scope
         (map (fun p => mark_by mark_published ids 0 (set_published false p))
              db))
  = filter (listed ids) (map id db).
Proof.
  unfold published_scope. induction db as [|p db IH]; simpl.
  - reflexivity.
  - unfold mark_by at 1. simpl.
    destruct (last_index (id p) ids 0) as [j|] eqn:E; simpl.
    + assert (Hin : listed ids (id p) = true).
      { apply listed_iff.
        destruct (in_dec string_dec (id p) ids) as [H|H]; [exact H|].
        apply (last_index_none (id p) ids 0) in H. congruence. }
      rewrite Hin. simpl. rewrite IH. f_equal.
      unfold mark_by. simpl. now rewrite E.
    + assert (Hout : listed ids (id p) = false).
      { apply not_true_is_false. intros H. apply listed_iff in H.
        apply (last_index_none (id p) ids 0) in E. contradiction. }
      rewrite Hout. exact IH.
Qed.

Lemma filter_absent i db :
  ~ In i (map id db) -> filter (fun p => negb (has_id i p)) db = db.
Proof.
  induction db as [|p db IH]; simpl; intros H.
  - reflexivity.
  - destruct (has_id i p) eqn:E.
    + apply has_id_true in E. exfalso. auto.
    + simpl. f_equal. apply IH. tauto.
Qed.

Lemma published_ids_renumber_from a l :
  map id (filter published
            (forEach_idx (fun k p => set_order (Z.of_nat k) p) a l))
  = map id (filter published l).
Proof.
  revert a. induction l as [|p l IH]; simpl; intros a.
  - reflexivity.
  - destruct (published p); simpl; now rewrite IH.
Qed.

Lemma published_ids_filter i l :
  map id (filter published (filter (fun p => negb (has_id i p)) l))
  = filter (fun x => negb (String.eqb x i)) (map id (filter published l)).
Proof.
  induction l as [|p l IH]; simpl.
  - reflexivity.
  - unfold has_id at 1.
    destruct (String.eqb (id p) i) eqn:Ei, (published p) eqn:Ep; simpl;
      rewrite ?Ep, ?Ei; simpl; now rewrite IH.
Qed.

Section ListingFacts.

Variable cldUrl : string -> UrlOpts -> string.
Variable path_basename : string -> string -> string.
Variable path_extname : string -> string.

Local Abbreviation get_photos := (get_photos cldUrl).
Local Abbreviation get_admin_photos := (get_admin_photos cldUrl).
Local Abbreviation register := (register path_basename path_extname).

Lemma get_photos_ids db :
  map pub_id (get_photos db) = map id (published_scope db).
Proof.
  unfold get_photos, published_scope. now rewrite map_map.
Qed.

Lemma get_photos_orders db :
  map pub_order (get_photos db) = map order (published_scope db).
Proof.
  unfold get_photos, published_scope. now rewrite map_map.
Qed.

(** After a publish with a list, the public listing shows the records of
    the collection whose id is listed, in the arrangement of the array (not
    that of the list), each with the position of its id in the list as
    [order]; the count answered by the publish is the size of the listing. *)
Theorem publish_public_listing (ids : list string) (db db' : list Photo)
  (n : nat) :
  NoDup (map id db) ->
  publish (Some ids) db = Done n db' ->
  map pub_id (get_photos db') = filter (listed ids) (map id db) /\
  map pub_order (get_photos db')
  = map (position ids) (filter (listed ids) (map id db)) /\
  n = List.length (get_photos db').
Proof.
  intros Hnd H. unfold publish in H.
  rewrite publish_list_map in H by assumption.
  injection H as Hn Hdb. subst db'.
  rewrite get_photos_ids, get_photos_orders.
  rewrite published_scope_ids, published_scope_orders.
  repeat split. subst n. unfold get_photos.
  now rewrite length_map.
Qed.

Lemma register_unpublished uuid now lookup body db photo db' :
  register uuid now lookup body db = Done photo db' ->
  published photo = false.
Proof.
  unfold register.
  destruct (nonempty (reg_cloudinaryId body)) as [cid|]; [|discriminate].
  destruct (final_dims lookup cid body) as [finalW finalH].
  intros H. injection H as <- _. reflexivity.
Qed.

(** A photo that was just registered is in the admin listing, as its last
    element, and not in the public listing, which is unchanged; the health
    count grows by one. *)
Theorem register_listings uuid now lookup body (db : list Photo) photo db' :
  register uuid now lookup body db = Done photo db' ->
  get_photos db' = get_photos db /\
  get_admin_photos db' = get_admin_photos db ++ [admin_view cldUrl photo] /\
  adm_published (admin_view cldUrl photo) = false /\
  get_health db' = S (get_health db).
Proof.
  intros H. pose proof (register_unpublished _ _ _ _ _ _ _ H) as Hpub.
  apply register_done in H. destruct H as (-> & _ & _).
  repeat split.
  - unfold get_photos. rewrite filter_app. simpl. rewrite Hpub.
    now rewrite app_nil_r.
  - unfold get_admin_photos. now rewrite map_app.
  - exact Hpub.
  - unfold get_health. rewrite length_app. simpl. lia.
Qed.

(** Registering a photo on a collection whose orders are the array indices
    and deleting it again gives the collection back. *)
Theorem register_then_delete (destroy : string -> bool) uuid now lookup body
  (db : list Photo) photo db' :
  indexed_orders db ->
  ~ In uuid (map id db) ->
  register uuid now lookup body db = Done photo db' ->
  delete_photo destroy uuid db' = Done tt db.
Proof.
  intros Hidx Hfresh H.
  apply register_done in H. destruct H as (-> & Hid & _).
  rewrite delete_photo_done.
  - rewrite filter_app, (filter_absent uuid db Hfresh). simpl.
    assert (E : has_id uuid photo = true) by now apply has_id_true.
    rewrite E. simpl. rewrite app_nil_r. now rewrite renumber_fix.
  - rewrite map_app. apply in_or_app. right. simpl. now left.
Qed.

(** A delete takes the deleted record, and nothing else, out of the public
    listing. *)
Theorem delete_public_listing (destroy : string -> bool) (i : string)
  (db db' : list Photo) :
  delete_photo destroy i db = Done tt db' ->
  map pub_id (get_photos db')
  = filter (fun x => negb (String.eqb x i)) (map pub_id (get_photos db)).
Proof.
  intros H. apply delete_photo_present in H. destruct H as (_ & ->).
  rewrite !get_photos_ids. unfold published_scope, renumber.
  rewrite published_ids_renumber_from. apply published_ids_filter.
Qed.

End ListingFacts.

Lemma publish_public_listing_witness :
  map pub_id
      (get_photos demo_url
         [set_order 1 (set_published true photo_a); photo_b;
          set_order 0 (set_published true photo_c)])
  = ["a"; "c"] /\
  map pub_order
      (get_photos demo_url
         [set_order 1 (set_published true photo_a); photo_b;
          set_order 0 (set_published true photo_c)])
  = [1; 0] /\
  2%nat = List.length
            (get_photos demo_url
               [set_order 1 (set_published true photo_a); photo_b;
                set_order 0 (set_published true photo_c)]).
Proof.
  apply (publish_public_listing demo_url ["c"; "a"] demo_db).
  - repeat constructor; simpl; intuition discriminate.
  - reflexivity.
Defined.

Lemma register_listings_witness :
  exists photo db',
    register whole_basename no_extname (call_uuid call_c) (call_now call_c)
             (call_lookup call_c) (call_body call_c) two_db
    = Done photo db' /\
    get_photos demo_url db' = get_photos demo_url two_db /\
    get_health db' = 3%nat.
Proof.
  eexists. eexists. split; [reflexivity|].
  destruct (register_listings demo_url whole_basename no_extname
              (call_uuid call_c) (call_now call_c) (call_lookup call_c)
              (call_body call_c) two_db _ _ eq_refl)
    as (Hpub & _ & _ & Hcount).
  split; [exact Hpub | exact Hcount].
Defined.

Lemma register_then_delete_witness :
  exists photo db',
    register whole_basename no_extname (call_uuid call_c) (call_now call_c)
             (call_lookup call_c) (call_body call_c) two_db
    = Done photo db' /\
    delete_photo (fun _ => false) "c" db' = Done tt two_db.
Proof.
  eexists. eexists. split; [reflexivity|].
  eapply (register_then_delete whole_basename no_extname (fun _ => false)
            (call_uuid call_c) (call_now call_c) (call_lookup call_c)
            (call_body call_c) two_db).
  - reflexivity.
  - simpl. intuition discriminate.
  - reflexivity.
Defined.

Lemma delete_public_listing_witness :
  map pub_id
      (get_photos demo_url
         (renumber [set_published true photo_a; set_published true photo_c]))
  = filter (fun x => negb (String.eqb x "b"))
      (map pub_id
         (get_photos demo_url
            [set_published true photo_a; photo_b;
             set_published true photo_c])).
Proof.
  apply (delete_public_listing demo_url (fun _ => true) "b"
           [set_published true photo_a; photo_b; set_published true photo_c]).
  reflexivity.
Defined.

(** ** What a read returns after a write *)

Section StoreFacts.

Variable bytes : Type.
Variable JSON_stringify : list Photo -> bytes.
Variable JSON_parse : bytes -> option (list Photo).

Local Abbreviation readDB := (readDB bytes JSON_stringify JSON_parse).
Local Abbreviation writeDB := (writeDB bytes JSON_stringify).
Local Abbreviation readDB_legacy :=
  (readDB_legacy bytes JSON_stringify JSON_parse).
Local Abbreviation serve_clear := (serve_clear bytes JSON_stringify JSON_parse).
Local Abbreviation serve_get := (serve_get bytes JSON_stringify JSON_parse).
Local Abbreviation read_local := (read_local bytes JSON_parse).
Local Abbreviation fetch_cloud := (fetch_cloud bytes JSON_parse).

Lemma stale_read rio wio data (st : Store bytes) s old :
  local_file st = Some s -> JSON_parse s = Some old ->
  file_write wio = false ->
  readDB rio (writeDB wio data st) = (old, writeDB wio data st).
Proof.
  intros Hs Hp Hfw. destruct st as [loc cld], wio as [fw tw uw].
  simpl in Hs, Hfw. subst loc fw.
  unfold readDB, writeDB, read_local. simpl.
  destruct (tw && uw); simpl; now rewrite Hp.
Qed.

(** The local file has precedence over the raw object: when the write of
    the local file fails while the file holds an older snapshot that
    parses, every later read returns the older snapshot, also when the
    upload went through and the raw object holds the new data. *)
Theorem stale_local_copy_wins (rio : ReadIO) (wio : WriteIO)
  (data : list Photo) (st : Store bytes) (s : bytes) (old : list Photo) :
  local_file st = Some s -> JSON_parse s = Some old ->
  file_write wio = false ->
  readDB rio (writeDB wio data st) = (old, writeDB wio data st) /\
  (tmp_write wio && upload wio = true ->
   cloud_raw (writeDB wio data st) = Some (JSON_stringify data)).
Proof.
  intros Hs Hp Hfw. split.
  - eapply stale_read; eauto.
  - intros Hup. rewrite writeDB_cloud. now rewrite Hup.
Qed.

(** The earlier [readDB] and the current one return the same thing except
    when the raw object was fetched and the write of the local copy fails:
    the earlier one then returns the empty collection, the current one the
    fetched snapshot. *)
Theorem readDB_legacy_differs (io : ReadIO) (st : Store bytes) :
  (cache_write io = true \/ read_local st <> None \/
   fetch_cloud io st = None ->
   readDB_legacy io st = readDB io st) /\
  (forall data,
      read_local st = None -> fetch_cloud io st = Some data ->
      cache_write io = false ->
      readDB_legacy io st = ([], st) /\ readDB io st = (data, st)).
Proof.
  unfold readDB_legacy, readDB. split.
  - intros H. destruct (read_local st) as [d|]; [reflexivity|].
    destruct (fetch_cloud io st) as [d|]; [|reflexivity].
    destruct (cache_write io); [reflexivity|].
    destruct H as [H | [H | H]]; congruence.
  - intros data Hloc Hf Hcw. now rewrite Hloc, Hf, Hcw.
Qed.

Hypothesis JSON_roundtrip :
  forall data, JSON_parse (JSON_stringify data) = Some data.

(** A read after a write returns what was written when the local file took
    the write, and also when the local file is missing or unreadable, only
    the upload went through and the raw object can be fetched; the fetched
    snapshot is then put in the local file if the disk takes it. *)
Theorem write_then_read (rio : ReadIO) (wio : WriteIO) (data : list Photo)
  (st : Store bytes) :
  (file_write wio = true ->
   readDB rio (writeDB wio data st) = (data, writeDB wio data st)) /\
  (local_file st = None \/
   (exists s, local_file st = Some s /\ JSON_parse s = None) ->
   file_write wio = false ->
   tmp_write wio && upload wio = true ->
   fetch_up rio = true ->
   fst (readDB rio (writeDB wio data st)) = data /\
   (cache_write rio = true ->
    local_file (snd (readDB rio (writeDB wio data st)))
    = Some (JSON_stringify data))).
Proof.
  split.
  - apply reload_after_local_save. exact JSON_roundtrip.
  - intros Hloc Hfw Hup Hnet.
    apply (read_local_none bytes JSON_parse) in Hloc.
    destruct st as [loc cld], wio as [fw tw uw], rio as [up cw].
    simpl in Hfw, Hup, Hnet. subst fw up.
    unfold readDB, writeDB, read_local, fetch_cloud in *. simpl in *.
    rewrite Hup. simpl. rewrite Hloc, JSON_roundtrip. simpl.
    split; [reflexivity|]. now intros ->.
Qed.

(** Clearing answers ok in every case.  When the local file took the write,
    every later read returns the empty collection and the health count is
    0.  When that write failed while the local file holds a snapshot that
    parses, later reads still return that snapshot. *)
Theorem clear_then_read (rio rio' : ReadIO) (raw_destroyed : bool)
  (wio : WriteIO) (st : Store bytes) :
  fst (serve_clear rio raw_destroyed wio st) = Done tt [] /\
  (file_write wio = true ->
   fst (readDB rio' (snd (serve_clear rio raw_destroyed wio st))) = [] /\
   fst (serve_get get_health rio'
          (snd (serve_clear rio raw_destroyed wio st))) = 0%nat) /\
  (forall s old,
      local_file st = Some s -> JSON_parse s = Some old ->
      file_write wio = false ->
      fst (readDB rio' (snd (serve_clear rio raw_destroyed wio st))) = old).
Proof.
  unfold serve_clear, serve_get.
  destruct (readDB rio st) as [db st1] eqn:E1. simpl.
  split; [reflexivity|]. split.
  - intros Hfw.
    rewrite (reload_after_local_save bytes JSON_stringify JSON_parse
               JSON_roundtrip rio' wio [] _ Hfw).
    split; reflexivity.
  - intros s old Hs Hp Hfw.
    assert (Hst1 : st1 = st).
    { unfold readDB, read_local in E1. rewrite Hs, Hp in E1.
      now injection E1. }
    subst st1.
    erewrite stale_read; [reflexivity | | exact Hp | exact Hfw].
    destruct raw_destroyed; exact Hs.
Qed.

End StoreFacts.

Lemma stale_local_copy_wins_witness :
  let st := mkStore (Some (Some [photo_a])) (Some (Some [photo_a])) in
  let wio := mkWriteIO false true true in
  readDB doc doc_stringify doc_parse (mkReadIO true true)
         (writeDB doc doc_stringify wio demo_db st)
  = ([photo_a], writeDB doc doc_stringify wio demo_db st) /\
  (true && true = true ->
   cloud_raw (writeDB doc doc_stringify wio demo_db st)
   = Some (doc_stringify demo_db)).
Proof.
  intros st wio.
  apply (stale_local_copy_wins doc doc_stringify doc_parse
           (mkReadIO true true) wio demo_db st (Some [photo_a]) [photo_a]);
    reflexivity.
Defined.

Lemma readDB_legacy_differs_witness :
  let st := mkStore None (Some (Some demo_db)) in
  let io := mkReadIO true false in
  readDB_legacy doc doc_stringify doc_parse io st = ([], st) /\
  readDB doc doc_stringify doc_parse io st = (demo_db, st).
Proof.
  intros st io.
  destruct (readDB_legacy_differs doc doc_stringify doc_parse io st)
    as (_ & H).
  apply (H demo_db); reflexivity.
Defined.

Lemma write_then_read_witness :
  let st := mkStore (Some None) None in
  let wio := mkWriteIO false true true in
  let rio := mkReadIO true true in
  fst (readDB doc doc_stringify doc_parse rio
         (writeDB doc doc_stringify wio demo_db st)) = demo_db /\
  (true = true ->
   local_file (snd (readDB doc doc_stringify doc_parse rio
                      (writeDB doc doc_stringify wio demo_db st)))
   = Some (doc_stringify demo_db)).
Proof.
  intros st wio rio.
  destruct (write_then_read doc doc_stringify doc_parse (fun data => eq_refl)
              rio wio demo_db st) as (_ & H).
  apply H.
  - right. exists None. split; reflexivity.
  - reflexivity.
  - reflexivity.
  - reflexivity.
Defined.

Lemma clear_then_read_witness :
  let st := mkStore (Some (Some demo_db)) (Some (Some demo_db)) in
  fst (readDB doc doc_stringify doc_parse (mkReadIO true true)
         (snd (serve_clear doc doc_stringify doc_parse (mkReadIO true true)
                 true (mkWriteIO true true true) st))) = [] /\
  fst (readDB doc doc_stringify doc_parse (mkReadIO true true)
         (snd (serve_clear doc doc_stringify doc_parse (mkReadIO true true)
                 true (mkWriteIO false true true) st))) = demo_db.
Proof.
  intros st. split.
  - destruct (clear_then_read doc doc_stringify doc_parse
                (fun data => eq_refl) (mkReadIO true true) (mkReadIO true true)
                true (mkWriteIO true true true) st) as (_ & H & _).
    apply H. reflexivity.
  - destruct (clear_then_read doc doc_stringify doc_parse
                (fun data => eq_refl) (mkReadIO true true) (mkReadIO true true)
                true (mkWriteIO false true true) st) as (_ & _ & H).
    apply (H (Some demo_db) demo_db); reflexivity.
Defined.

(** ** requireAuth and login *)

Lemma prefix_app p t : String.prefix p (p ++ t)%string = true.
Proof.
  induction p as [|a p IH]; simpl.
  - now destruct t.
  - destruct (ascii_dec a a); [exact IH | contradiction].
Qed.

Lemma prefix_inv p s :
  String.prefix p s = true -> exists t, s = (p ++ t)%string.
Proof.
  revert s. induction p as [|a p IH]; intros s H.
  - now exists s.
  - destruct s as [|b s]; simpl in H; [discriminate|].
    destruct (ascii_dec a b) as [->|]; [|discriminate].
    destruct (IH s H) as (t & ->). now exists t.
Qed.

Lemma substring_all t : String.substring 0 (String.length t) t = t.
Proof.
  induction t as [|c t IH]; simpl; [reflexivity | now rewrite IH].
Qed.

Lemma substring_after p t :
  String.substring (String.length p)
                   (String.length (p ++ t) - String.length p) (p ++ t)%string
  = t.
Proof.
  induction p as [|a p IH]; simpl.
  - rewrite Nat.sub_0_r. apply substring_all.
  - exact IH.
Qed.

Lemma bearer_token_some t :
  bearer_token (Some ("Bearer " ++ t)%string) = Some t.
Proof.
  unfold bearer_token. rewrite prefix_app. f_equal.
  apply (substring_after "Bearer " t).
Qed.

Lemma bearer_token_inv authorization t :
  bearer_token authorization = Some t ->
  authorization = Some ("Bearer " ++ t)%string.
Proof.
  unfold bearer_token. destruct authorization as [a|].
  - destruct (String.prefix "Bearer " a) eqn:E; [|discriminate].
    apply prefix_inv in E. destruct E as (t' & ->).
    intros H. injection H as H. rewrite <- H. do 2 f_equal.
    symmetry. exact (substring_after "Bearer " t').
  - discriminate.
Qed.

Section AuthFacts.

Variable U : Type.
Variable jwt_verify : string -> option U.

Local Abbreviation requireAuth := (requireAuth U jwt_verify).

(** The middleware lets a request through exactly when its Authorization
    header is "Bearer " followed by a non-empty token that [jwt.verify]
    accepts; the user it passes on is the verified payload.  Every refusal
    is a 401, and a header that does not start with "Bearer " is refused
    whatever [jwt.verify] would say. *)
Theorem requireAuth_accepts (authorization : option string) :
  (forall user,
      requireAuth authorization = Next user <->
      exists token,
        authorization = Some ("Bearer " ++ token)%string /\
        token <> EmptyString /\
        jwt_verify token = Some user) /\
  (forall status error,
      requireAuth authorization = Deny status error -> status = 401) /\
  ((forall token, authorization <> Some ("Bearer " ++ token)%string) ->
   requireAuth authorization = Deny 401 "Non authentifie").
Proof.
  split; [|split].
  - intros user. unfold requireAuth. split.
    + destruct (bearer_token authorization) as [token|] eqn:E; [|discriminate].
      destruct (String.eqb_spec token EmptyString) as [|Hne]; [discriminate|].
      destruct (jwt_verify token) as [u|] eqn:Ev; [|discriminate].
      intros H. injection H as ->.
      exists token. apply bearer_token_inv in E. auto.
    + intros (token & -> & Hne & Hv). rewrite bearer_token_some.
      destruct (String.eqb_spec token EmptyString); [contradiction|].
      now rewrite Hv.
  - intros status error. unfold requireAuth.
    destruct (bearer_token authorization) as [token|].
    + destruct (String.eqb token EmptyString); [congruence|].
      destruct (jwt_verify token); [discriminate | congruence].
    + congruence.
  - intros Hno. unfold requireAuth.
    destruct (bearer_token authorization) as [token|] eqn:E; [|reflexivity].
    apply bearer_token_inv in E. exfalso. now apply (Hno token).
Qed.

Variable ADMIN_PASSWORD : string.

Local Abbreviation login := (login ADMIN_PASSWORD).
Local Abbreviation guarded := (guarded U jwt_verify).

(** Login hands out a token for the admin password and for nothing else;
    sent back as "Bearer <token>", a token that [jwt.verify] accepts makes
    every admin route run its handler. *)
Theorem login_opens_admin_routes (issued : string) (user : U) :
  issued <> EmptyString ->
  jwt_verify issued = Some user ->
  (forall password token,
      login issued password = Next token <->
      password = Some ADMIN_PASSWORD /\ token = issued) /\
  (forall password,
      password <> Some ADMIN_PASSWORD ->
      login issued password = Deny 401 "Mot de passe incorrect") /\
  (forall (A : Type) (handler : list Photo -> Outcome A) db,
      guarded handler (Some ("Bearer " ++ issued)%string) db = handler db).
Proof.
  intros Hne Hv. split; [|split].
  - intros password token. unfold login. split.
    + destruct password as [given|]; [|discriminate].
      destruct (String.eqb_spec given ADMIN_PASSWORD) as [->|];
        [|discriminate].
      intros H. injection H as <-. auto.
    + intros (-> & ->). now rewrite String.eqb_refl.
  - intros password Hp. unfold login.
    destruct password as [given|]; [|reflexivity].
    destruct (String.eqb_spec given ADMIN_PASSWORD) as [->|];
      [contradiction | reflexivity].
  - intros A handler db. unfold guarded, requireAuth.
    rewrite bearer_token_some.
    destruct (String.eqb_spec issued EmptyString); [contradiction|].
    now rewrite Hv.
Qed.

End AuthFacts.

Lemma requireAuth_accepts_witness :
  requireAuth unit demo_verify (Some "Bearer tok") = Next tt /\
  requireAuth unit demo_verify (Some "bearer tok")
  = Deny 401 "Non authentifie".
Proof.
  split.
  - destruct (requireAuth_accepts unit demo_verify (Some "Bearer tok"))
      as (H & _ & _).
    apply H. exists "tok". repeat split. discriminate.
  - destruct (requireAuth_accepts unit demo_verify (Some "bearer tok"))
      as (_ & _ & H).
    apply H. intros token. discriminate.
Defined.

Lemma login_opens_admin_routes_witness :
  login "atelier2024" "tok" (Some "atelier2024") = Next "tok" /\
  login "atelier2024" "tok" (Some "Atelier2024")
  = Deny 401 "Mot de passe incorrect" /\
  guarded unit demo_verify (delete_photo (fun _ => true) "b")
          (Some "Bearer tok") demo_db
  = delete_photo (fun _ => true) "b" demo_db.
Proof.
  destruct (login_opens_admin_routes unit demo_verify "atelier2024" "tok" tt)
    as (Hok & Hbad & Hroute).
  - discriminate.
  - reflexivity.
  - split; [|split].
    + apply Hok. split; reflexivity.
    + apply Hbad. discriminate.
    + apply Hroute.
Defined.

(** ** The default name *)

Lemma has_slash_app p b :
  has_slash (p ++ String "/" b)%string = true.
Proof.
  induction p as [|c p IH]; simpl.
  - reflexivity.
  - rewrite IH. apply orb_true_r.
Qed.

Lemma split_pop_plain s : has_slash s = false -> split_pop s = s.
Proof.
  destruct s as [|c s]; [reflexivity|].
  intros H. cbn [split_pop]. now rewrite H.
Qed.

(** [split('/').pop()] is the last segment: a reference without '/' is
    returned whole, and of [p/b] with no '/' in [b] it returns [b],
    whatever [p] is; applying it again changes nothing. *)
Theorem split_pop_last_segment :
  (forall s, has_slash s = false -> split_pop s = s) /\
  (forall p b,
      has_slash b = false -> split_pop (p ++ String "/" b)%string = b) /\
  (forall s, split_pop (split_pop s) = split_pop s).
Proof.
  split; [|split].
  - apply split_pop_plain.
  - intros p b Hb. induction p as [|c p IH].
    + simpl. now apply split_pop_plain.
    + change ((String c p ++ String "/" b)%string)
        with (String c (p ++ String "/" b)%string).
      cbn [split_pop].
      assert (E : has_slash (String c (p ++ String "/" b)) = true).
      { apply (has_slash_app (String c p) b). }
      rewrite E. exact IH.
  - intros s. apply split_pop_plain, split_pop_no_slash.
Qed.

Lemma split_pop_last_segment_witness :
  split_pop "k9f2" = "k9f2" /\
  split_pop "atelier-portfolio/photos/k9f2" = "k9f2".
Proof.
  destruct split_pop_last_segment as (Hplain & Hlast & _).
  split.
  - apply Hplain. reflexivity.
  - apply (Hlast "atelier-portfolio/photos" "k9f2"). reflexivity.
Defined.

(** ** Instances of the invariants *)

Lemma reachable_unique_ids_witness : NoDup (map id gap_db).
Proof.
  apply (reachable_unique_ids whole_basename no_extname gap_db).
  apply gap_db_reachable.
Defined.

Lemma serve_delete_twice_witness :
  fst (serve doc doc_stringify doc_parse (delete_photo (fun _ => true) "b")
         (mkReadIO true true) (mkWriteIO false false false)
         (mkStore (Some (Some (renumber [photo_a; photo_c]))) None))
  = Fail 404 "Photo introuvable".
Proof.
  apply (serve_delete_twice doc doc_stringify doc_parse (fun data => eq_refl)
           (fun _ => false) (fun _ => true) "b"
           (mkReadIO false false) (mkWriteIO true false true)
           (mkReadIO true true) (mkWriteIO false false false)
           (mkStore (Some (Some demo_db)) None)
           (mkStore (Some (Some (renumber [photo_a; photo_c]))) None)
           (renumber [photo_a; photo_c])).
  - reflexivity.
  - reflexivity.
Defined.

(** ** Register requests only append *)

Section RegisterSequenceFacts.

Variable path_basename : string -> string -> string.
Variable path_extname : string -> string.

Local Abbreviation register := (register path_basename path_extname).
Local Abbreviation register_all := (register_all path_basename path_extname).

Lemma register_accepted c db :
  accepted c = true ->
  exists photo,
    register (call_uuid c) (call_now c) (call_lookup c) (call_body c) db
    = Done photo (db ++ [photo]) /\
    id photo = call_uuid c /\
    published photo = false /\
    order photo = Z.of_nat (List.length db).
Proof.
  unfold accepted, register.
  destruct (nonempty (reg_cloudinaryId (call_body c))) as [cid|];
    [|discriminate].
  intros _.
  destruct (final_dims (call_lookup c) cid (call_body c)) as [finalW finalH].
  eexists. repeat split.
Qed.

Lemma register_refused c db :
  accepted c = false ->
  register (call_uuid c) (call_now c) (call_lookup c) (call_body c) db
  = Fail 400 "cloudinaryId manquant".
Proof.
  unfold accepted, register.
  destruct (nonempty (reg_cloudinaryId (call_body c))); [discriminate|].
  reflexivity.
Qed.

(** A sequence of register requests never touches the records that were
    there: the collection it leaves is the previous one followed by one
    unpublished record per request that names its blob, in the order of the
    requests, with the generated ids and the orders n, n+1, ... *)
Theorem register_all_appends (calls : list RegisterCall) (db : list Photo) :
  exists added,
    register_all calls db = db ++ added /\
    map id added = map call_uuid (filter accepted calls) /\
    Forall (fun p => published p = false) added /\
    map order added
    = map Z.of_nat (seq (List.length db) (List.length added)).
Proof.
  revert db. induction calls as [|c calls IH]; intros db.
  - exists []. simpl. rewrite app_nil_r. repeat split. constructor.
  - simpl.
    destruct (accepted c) eqn:Ec.
    + destruct (register_accepted c db Ec) as (photo & Hreg & Hid & Hpub & Ho).
      rewrite Hreg.
      destruct (IH (db ++ [photo])) as (added & Hall & Hids & Hunpub & Hord).
      exists (photo :: added). rewrite Hall, <- app_assoc. simpl.
      repeat split.
      * now rewrite Hid, Hids.
      * now constructor.
      * rewrite Ho, Hord, length_app, Nat.add_1_r. reflexivity.
    + rewrite (register_refused c db Ec). apply IH.
Qed.

End RegisterSequenceFacts.

(** ** Requests refused before the database is read *)

(** A reorder without a list and a register without a blob reference are
    answered 400 with both copies left as they were: not even the local
    copy is filled from the raw object. *)
Lemma refused_before_read (bytes : Type)
  (JSON_stringify : list Photo -> bytes)
  (JSON_parse : bytes -> option (list Photo))
  path_basename path_extname uuid now lookup body rio wio
  (st : Store bytes) :
  serve_reorder bytes JSON_stringify JSON_parse None rio wio st
  = (Fail 400 "ids requis", st) /\
  (nonempty (reg_cloudinaryId body) = None ->
   serve_register bytes JSON_stringify JSON_parse path_basename path_extname
                  uuid now lookup body rio wio st
   = (Fail 400 "cloudinaryId manquant", st)).
Proof.
  split; [reflexivity|].
  intros H. unfold serve_register. now rewrite H.
Qed.
